(** * discogstagger: the release-to-track mapping of [discogsalbum.py]

    A shallow embedding of the class [DiscogsAlbum] and of the Python
    built-ins and regular expressions it relies on, followed by the
    properties of the mapping.

    Conventions of the embedding.
    - A Python [str] is a [string]; the characters are the 256 values of
      [ascii].  The module targets Python 2 ([str] patterns without the
      UNICODE flag), where [\d] is [0-9] and [\s] is one of space, tab,
      line feed, vertical tab, form feed and carriage return.
    - A call that may raise returns a [result]; the exception classes the
      module can raise are the constructors of [exn].
    - [self] is a record holding the instance attributes: [release], bound
      by [__init__], and [discs], which no method ever binds. *)

From Stdlib Require Import ZArith String Ascii List Lia DecimalString.
From stdpp Require Import base option list strings gmap.

Local Open Scope Z_scope.

(** ** Exceptions and results *)

Inductive exn : Type :=
| AttributeError (attr : string)
| NameError (name : string)
| IndexError
| KeyError (key : string)
| KeyErrorInt (key : Z)
| ValueError.

Inductive result (A : Type) : Type :=
| Ok (a : A)
| Raise (e : exn).

Arguments Ok {A} a.
Arguments Raise {A} e.

#[global] Instance result_ret : MRet result := λ A a, Ok a.

#[global] Instance result_bind : MBind result := λ A B k c,
  match c with
  | Ok a => k a
  | Raise e => Raise e
  end.

#[global] Instance result_fmap : FMap result := λ A B f c,
  match c with
  | Ok a => Ok (f a)
  | Raise e => Raise e
  end.

(** [try: body except IndexError: handler] *)
Definition try_except_IndexError {A : Type} (body handler : result A) : result A :=
  match body with
  | Raise IndexError => handler
  | r => r
  end.

(** ** Python built-ins used by the module *)

Module Py.

(** Truth value of a string: [if s:] *)
Definition truthy (s : string) : bool :=
  match s with
  | EmptyString => false
  | String _ _ => true
  end.

(** [s.find(c)] for a one-character needle: the index of the first
    occurrence, [-1] when there is none. *)
Fixpoint find (c : ascii) (s : string) : Z :=
  match s with
  | EmptyString => -1
  | String a r =>
      if Ascii.eqb a c then 0
      else let i := find c r in if i =? -1 then -1 else i + 1
  end.

Fixpoint drop (n : nat) (s : string) : string :=
  match n, s with
  | O, _ => s
  | S _, EmptyString => EmptyString
  | S k, String _ r => drop k r
  end.

Fixpoint take (n : nat) (s : string) : string :=
  match n, s with
  | O, _ => EmptyString
  | S _, EmptyString => EmptyString
  | S k, String a r => String a (take k r)
  end.

(** A slice bound, as Python normalises it: a negative bound counts from
    the end, and the result is clamped to [0, len]. *)
Definition bound (len i : Z) : nat :=
  Z.to_nat (if i <? 0 then Z.max 0 (i + len) else Z.min i len).

(** [s[i:]] *)
Definition slice_from (s : string) (i : Z) : string :=
  drop (bound (Z.of_nat (String.length s)) i) s.

(** [s[:i]] *)
Definition slice_to (s : string) (i : Z) : string :=
  take (bound (Z.of_nat (String.length s)) i) s.

Definition is_digit (c : ascii) : bool :=
  let n := nat_of_ascii c in (48 <=? n)%nat && (n <=? 57)%nat.

(** [\s] of a [str] pattern, which is also what [int] strips. *)
Definition is_space (c : ascii) : bool :=
  let n := nat_of_ascii c in
  (n =? 32)%nat || ((9 <=? n)%nat && (n <=? 13)%nat).

Fixpoint lstrip (s : string) : string :=
  match s with
  | String a r => if is_space a then lstrip r else s
  | EmptyString => EmptyString
  end.

(** The value of a run of decimal digits that fills the string up to
    trailing white space; [None] when another character occurs or the
    run is empty. [acc] is the value read so far, [seen] whether a digit
    was read. *)
Fixpoint digits (acc : Z) (seen : bool) (s : string) : option Z :=
  match s with
  | EmptyString => if seen then Some acc else None
  | String a r =>
      if is_digit a then
        digits (10 * acc + Z.of_nat (nat_of_ascii a - 48)) true r
      else if seen && is_space a then
        match lstrip r with
        | EmptyString => Some acc
        | String _ _ => None
        end
      else None
  end.

(** [int(s)] on a string: optional white space, an optional sign, one or
    more decimal digits, optional white space; [ValueError] otherwise. *)
Definition int (s : string) : result Z :=
  let parsed :=
    match lstrip s with
    | String "+" r => digits 0 false r
    | String "-" r => Z.opp <$> digits 0 false r
    | r => digits 0 false r
    end in
  match parsed with
  | Some z => Ok z
  | None => Raise ValueError
  end.

(** A JSON scalar as the catalog client hands it over. *)
Inductive scalar : Type :=
| Int (z : Z)
| Str (s : string)
| Null.

(** [str(v)] *)
Definition str (v : scalar) : string :=
  match v with
  | Int z => NilZero.string_of_int (Z.to_int z)
  | Str s => s
  | Null => "None"
  end.

(** [l[0]] *)
Definition item0 {A : Type} (l : list A) : result A :=
  match l with
  | a :: _ => Ok a
  | [] => Raise IndexError
  end.

(** [d[key]] on a dictionary entry that may be missing. *)
Definition getitem {A : Type} (key : string) (entry : option A) : result A :=
  match entry with
  | Some a => Ok a
  | None => Raise (KeyError key)
  end.

End Py.

(** ** The three regular expressions of the module

    Each pattern is embedded as the matcher the [re] engine runs for it:
    left to right, greedy, backtracking. *)

Module Re.

(** Zero or more digits and a closing parenthesis at the start of [s]: the
    text after the parenthesis. *)
Fixpoint digits_close (s : string) : option string :=
  match s with
  | String a r =>
      if Py.is_digit a then digits_close r
      else if Ascii.eqb a ")" then Some r
      else None
  | EmptyString => None
  end.

(** The pattern of [clean_duplicate_handling] at the start of [s]: a white
    space character, an opening parenthesis, one or more digits, a closing
    parenthesis. Returns the text after the match. *)
Definition duplicate_at (s : string) : option string :=
  match s with
  | String w (String p (String d r)) =>
      if Py.is_space w && Ascii.eqb p "(" && Py.is_digit d
      then digits_close r else None
  | _ => None
  end.

(** [re.sub] of that pattern by the empty string: every match is dropped,
    scanning from the left; the scan resumes after a match. [skip] counts
    the characters of the current match still to drop. *)
Fixpoint sub_duplicate (skip : nat) (s : string) : string :=
  match s with
  | EmptyString => EmptyString
  | String a r =>
      match skip with
      | S k => sub_duplicate k r
      | O =>
          match duplicate_at s with
          | Some rest => sub_duplicate (String.length r - String.length rest) r
          | None => String a (sub_duplicate 0 r)
          end
      end
  end.

(** [,\sThe$] at the start of [s]; [$] is the end of the string or the
    position before a final line feed. *)
Definition comma_the_end (s : string) : bool :=
  match s with
  | String c (String w r) =>
      Ascii.eqb c "," && Py.is_space w
      && (String.eqb r "The" || String.eqb r (String "T" (String "h" (String "e" (String "010" EmptyString)))))
  | _ => false
  end.

(** The pattern of [clean_name], a group of any characters followed by
    [,\sThe$], anchored at the start of [s]: group 1 of the match. The dot
    is any character but a line feed, and the starred dot takes the longest
    run for which the rest of the pattern still matches. *)
Fixpoint the_at (s : string) : option string :=
  match s with
  | EmptyString => None
  | String a r =>
      let stop := if comma_the_end s then Some EmptyString else None in
      if Ascii.eqb a "010" then stop
      else match the_at r with
           | Some g => Some (String a g)
           | None => stop
           end
  end.

(** [re.search] with the pattern of [clean_name]: group 1 of the leftmost
    match. *)
Fixpoint search_the (s : string) : option string :=
  match the_at s with
  | Some g => Some g
  | None =>
      match s with
      | EmptyString => None
      | String _ r => search_the r
      end
  end.

(** [re.compile("\d\d\d\d").match(s)]: group 0 of a match at the start. *)
Definition match_year (s : string) : option string :=
  match s with
  | String a (String b (String c (String d _))) =>
      if Py.is_digit a && Py.is_digit b && Py.is_digit c && Py.is_digit d
      then Some (String a (String b (String c (String d EmptyString))))
      else None
  | _ => None
  end.

End Re.

(** ** The catalog snapshot

    The objects of the catalog client that the class reads. A dictionary
    with a fixed set of keys is a record; a key that the catalog may leave
    out is an [option]. *)

(** An artist credit: the client object read as [x.name], or the
    dictionary of the payload read as [x["name"]]. *)
Module Artist.
Record t : Type := { name : string }.
End Artist.

(** An entry of [data["formats"]]. *)
Module Format.
Record t : Type := {
  qty : string;
  descriptions : option (list string)
}.
End Format.

(** [release.data], the decoded payload. *)
Module Data.
Record t : Type := {
  year : option Py.scalar;
  formats : list Format.t;
  artists : list Artist.t
}.
End Data.

(** An entry of [release.tracklist]. *)
Module Entry.
Record t : Type := {
  type : string;
  title : string;
  position : string;
  duration : string;
  artists : list Artist.t
}.
End Entry.

Module Release.
Record t : Type := {
  data : Data.t;
  artists : list Artist.t;
  tracklist : list Entry.t
}.
End Release.

(** The value bound to [sort_artist] in the track loops: a cleaned name, or,
    in the exception handler, the method object [self.sort_artist] (the
    handler does not call it). *)
Inductive sort_value : Type :=
| SortName (s : string)
| SortMethod.

(** Modelled from the spec: the class [Track] of the module [album], which is
    not among the sources. The record has the fields of the spec's Track:
    position, disc and track number, title, artist, sort artist and the
    optional disc subtitle, under the attribute names the loops assign. *)
Module Track.
Record t : Type := {
  position : nat;
  tracknumber : Z;
  discnumber : Z;
  discsubtitle : option string;
  sortartist : sort_value;
  artist : list string;
  title : string
}.
End Track.

(** The dictionary [disc_and_track_no] returns. *)
Module Pos.
Record t : Type := {
  tracknumber : string;
  discnumber : string
}.
End Pos.

(** ** The class [DiscogsAlbum] *)

(** The instance attributes. [discs] is [None] while the attribute is
    unbound. *)
Record DiscogsAlbum : Type := {
  release : Release.t;
  discs : option (gmap Z Z)
}.

(** [__init__] binds [release] and nothing else; the release is the one the
    client fetched for the identifier. *)
Definition __init__ (fetched : Release.t) : DiscogsAlbum :=
  {| release := fetched; discs := None |}.

(** The names bound at the top level of the module: its imports, the
    logger and the class. *)
Definition module_names : list string :=
  ["logging"; "re"; "discogs"; "Album"; "Disc"; "Track"; "logger";
   "DiscogsAlbum"]%string.

(** Evaluation of a global name. *)
Definition global (n : string) : result unit :=
  if existsb (String.eqb n) module_names then Ok () else Raise (NameError n).

(** [self.artist]: the class has no such attribute (the property is
    commented out) and no method binds it on the instance. *)
Definition self_artist (self : DiscogsAlbum) : result (list string) :=
  Raise (AttributeError "artist").

Definition clean_duplicate_handling (clean_target : string) : string :=
  Re.sub_duplicate 0 clean_target.

(** The dictionary [groups] has one entry, so the loop body runs once. *)
Definition clean_name (clean_target : string) : string :=
  let clean_target := clean_duplicate_handling clean_target in
  match Re.search_the clean_target with
  | Some group1 => "The" +:+ " " +:+ group1
  | None => clean_target
  end.

Definition year (self : DiscogsAlbum) : result string :=
  try_except_IndexError
    (y ← Py.getitem "year" (Data.year (Release.data (release self)));
     match Re.match_year (Py.str y) with
     | Some group0 => Ok group0
     | None => Raise (AttributeError "group")
     end)
    (Ok "1900"%string).

Definition disctotal (self : DiscogsAlbum) : result Z :=
  format ← Py.item0 (Data.formats (Release.data (release self)));
  Py.int (Format.qty format).

(** The generator yields the names in order; it is embedded as the list of
    what it yields. *)
Definition _gen_artist (artist_data : list Artist.t) : list string :=
  Artist.name <$> artist_data.

Definition artists (self : DiscogsAlbum) : list string :=
  clean_name <$> _gen_artist (Release.artists (release self)).

Definition sort_artist (artist_data : list Artist.t) : result string :=
  first ← Py.item0 artist_data;
  Ok (clean_duplicate_handling (Artist.name first)).

Definition disc_and_track_no (position : string) : Pos.t :=
  let idx := Py.find "-" position in
  let idx := if idx =? -1 then Py.find "." position else idx in
  let idx := if idx =? -1 then 0 else idx in
  {| Pos.tracknumber := Py.slice_from position (idx + 1);
     Pos.discnumber := Py.slice_to position idx |}.

Definition tracktotal_on_disc (self : DiscogsAlbum) (discnumber : Z) : result Z :=
  match discs self with
  | None => Raise (AttributeError "discs")
  | Some table =>
      match table !! discnumber with
      | Some total => Ok total
      | None => Raise (KeyErrorInt discnumber)
      end
  end.

Definition is_compilation (self : DiscogsAlbum) : result bool :=
  first ← Py.item0 (Data.artists (Release.data (release self)));
  if String.eqb (Artist.name first) "Various" then Ok true
  else
    Ok (existsb
          (λ format,
             match Format.descriptions format with
             | Some ds => existsb (λ description, String.eqb description "compilation") ds
             | None => false
             end)
          (Data.formats (Release.data (release self)))).

(** *** The track loops

    [tracks] and [discs_and_tracks] run the same loop over the entries of
    type "Track", numbered by [enumerate]. The blocks the two bodies have
    in common are embedded once. *)

(** The generator expression both loops iterate over. *)
Definition typed_tracks (self : DiscogsAlbum) : list Entry.t :=
  filter (λ x, Entry.type x = "Track"%string) (Release.tracklist (release self)).

(** The [try] block: the sort artist and the artist of the entry, with the
    handler for an entry without artists. *)
Definition track_artist (self : DiscogsAlbum) (t : Entry.t)
    : result (sort_value * list string) :=
  try_except_IndexError
    (first ← Py.item0 (Entry.artists t);
     let sort_artist := clean_name (Artist.name first) in
     let artist := _gen_artist (Entry.artists t) in
     Ok (SortName sort_artist, artist))
    (artist ← self_artist self;
     Ok (SortMethod, artist)).

(** The test for a disc subtitle:
    [t["title"] and not t["position"] and not t["duration"]]. *)
Definition is_subtitle (t : Entry.t) : bool :=
  Py.truthy (Entry.title t) && negb (Py.truthy (Entry.position t))
  && negb (Py.truthy (Entry.duration t)).

(** The branch on [self.disctotal > 1]: the track number and the disc
    number of the entry, in the order the body assigns them. *)
Definition numbering (self : DiscogsAlbum) (t : Entry.t) : result (Z * Z) :=
  total ← disctotal self;
  if 1 <? total then
    let pos := disc_and_track_no (Entry.position t) in
    tracknumber ← Py.int (Pos.tracknumber pos);
    discnumber ← Py.int (Pos.discnumber pos);
    Ok (tracknumber, discnumber)
  else
    tracknumber ← Py.int (Entry.position t);
    Ok (tracknumber, 1).

(** [if discsubtitle: track.discsubtitle = discsubtitle] *)
Definition subtitle_attribute (discsubtitle : option string) : option string :=
  match discsubtitle with
  | Some s => if Py.truthy s then Some s else None
  | None => None
  end.

(** The body of [discs_and_tracks], from entry number [i] on. The track is
    built by the constructor of [Track] and completed by the assignments
    that follow; the record is what is appended. *)
Fixpoint discs_and_tracks_loop (self : DiscogsAlbum) (i : nat) (ts : list Entry.t)
    (discsubtitle : option string) (track_list : list Track.t)
    : result (list Track.t) :=
  match ts with
  | [] => Ok track_list
  | t :: ts' =>
      '(sort_artist, artist) ← track_artist self t;
      if is_subtitle t then
        discs_and_tracks_loop self (S i) ts' (Some (Entry.title t)) track_list
      else
        '(tracknumber, discnumber) ← numbering self t;
        let track :=
          {| Track.position := i + 1;
             Track.tracknumber := tracknumber;
             Track.discnumber := discnumber;
             Track.discsubtitle := subtitle_attribute discsubtitle;
             Track.sortartist := sort_artist;
             Track.artist := artist;
             Track.title := Entry.title t |} in
        discs_and_tracks_loop self (S i) ts' discsubtitle (track_list ++ [track])
  end.

Definition discs_and_tracks (self : DiscogsAlbum) : result (list Track.t) :=
  discs_and_tracks_loop self 0 (typed_tracks self) None [].

(** [self.discs[discnumber] = tracknumber]: the attribute is read, then the
    dictionary it holds is updated in place. *)
Definition discs_setitem (self : DiscogsAlbum) (discnumber tracknumber : Z)
    : result DiscogsAlbum :=
  match discs self with
  | None => Raise (AttributeError "discs")
  | Some table =>
      Ok {| release := release self;
            discs := Some (<[discnumber := tracknumber]> table) |}
  end.

(** The body of [tracks], from entry number [i] on. The loop updates
    [self.discs], so it returns the instance along with the outcome. *)
Fixpoint tracks_loop (self : DiscogsAlbum) (i : nat) (ts : list Entry.t)
    (discsubtitle : option string) (track_list : list Track.t)
    : result (list Track.t) * DiscogsAlbum :=
  match ts with
  | [] => (Ok track_list, self)
  | t :: ts' =>
      let step :=
        '(sort_artist, artist) ← track_artist self t;
        _ ← global "TrackContainer";
        if is_subtitle t then Ok None
        else
          '(tracknumber, discnumber) ← numbering self t;
          self' ← discs_setitem self discnumber tracknumber;
          Ok (Some
                (self',
                 {| Track.position := i + 1;
                    Track.tracknumber := tracknumber;
                    Track.discnumber := discnumber;
                    Track.discsubtitle := subtitle_attribute discsubtitle;
                    Track.sortartist := sort_artist;
                    Track.artist := artist;
                    Track.title := Entry.title t |})) in
      match step with
      | Raise e => (Raise e, self)
      | Ok None => tracks_loop self (S i) ts' (Some (Entry.title t)) track_list
      | Ok (Some (self', track)) =>
          tracks_loop self' (S i) ts' discsubtitle (track_list ++ [track])
      end
  end.

Definition tracks (self : DiscogsAlbum) : result (list Track.t) * DiscogsAlbum :=
  tracks_loop self 0 (typed_tracks self) None [].

(** *** The album mapping

    The methods that read the rest of the release object: [url],
    [labels_and_numbers], [images], [master_id] and [map]. *)

(** [try: body except KeyError: handler] *)
Definition try_except_KeyError {A : Type} (body handler : result A) : result A :=
  match body with
  | Raise (KeyError _) | Raise (KeyErrorInt _) => handler
  | r => r
  end.

(** A list comprehension [[f(x) for x in l]] whose element expression may
    raise: the elements are evaluated from the left. *)
Fixpoint comprehension {A B : Type} (f : A → result B) (l : list A)
    : result (list B) :=
  match l with
  | [] => Ok []
  | x :: l' =>
      y ← f x;
      ys ← comprehension f l';
      Ok (y :: ys)
  end.

(** An entry of [data["labels"]]. *)
Module Label.
Record t : Type := {
  name : string;
  catno : string
}.
End Label.

(** An entry of [data["images"]]; the key "uri" may be missing. *)
Module Image.
Record t : Type := {
  uri : option string
}.
End Image.

(** The attributes [_id] and [title] of the release object and the keys of
    its payload that the album mapping reads besides those of [Data.t]. *)
Module Details.
Record t : Type := {
  id : Py.scalar;
  title : string;
  labels : option (list Label.t);
  images : option (list Image.t);
  master_id : option Py.scalar;
  genres : option (list string);
  styles : option (list string);
  country : option string;
  notes : option string
}.
End Details.

(** A value held by an attribute of the album. *)
Inductive value : Type :=
| Text (s : string)
| Texts (l : list string)
| Number (z : Z)
| Flag (b : bool)
| Scalar (v : Py.scalar)
| NoValue.

(** Modelled from the spec: the class [Album] of the module [album], which is
    not among the sources. An album is the dictionary of its attributes;
    the constructor stores the identifier, the title and the artists of the
    spec's release model, and an assignment [album.a = v] stores [v] under
    the name of the attribute. *)
Definition Album (id : Py.scalar) (title : string) (artists : list string)
    : gmap string value :=
  {[ "id"%string := Scalar id; "title"%string := Text title;
     "artists"%string := Texts artists ]}.

Definition url (details : Details.t) : string :=
  "http://www.discogs.com/release/" +:+ Py.str (Details.id details).

(** The generator is embedded as the list of the pairs it yields, or as the
    exception it raises when it is started. *)
Definition labels_and_numbers (details : Details.t)
    : result (list (string * string)) :=
  labels ← Py.getitem "labels" (Details.labels details);
  Ok ((λ label, (clean_duplicate_handling (Label.name label), Label.catno label))
        <$> (labels : list Label.t)).

(** The handler is [pass]: the property then returns [None]. *)
Definition images (details : Details.t) : result (option (list string)) :=
  try_except_KeyError
    (l ← Py.getitem "images" (Details.images details);
     uris ← comprehension (λ x, Py.getitem "uri" (Image.uri x)) l;
     Ok (Some uris))
    (Ok None).

Definition master_id (details : Details.t) : result Py.scalar :=
  try_except_KeyError
    (Py.getitem "master_id" (Details.master_id details))
    (Ok Py.Null).

(** [map], one binding per statement; the last statement but one evaluates
    [self.discs_and_tracks] and drops its value. *)
Definition map (self : DiscogsAlbum) (details : Details.t)
    : result (gmap string value) :=
  let album := Album (Details.id details) (Details.title details) (artists self) in
  v ← sort_artist (Release.artists (release self));
  let album := <["sort_artist"%string := Text v]> album in
  let album := <["url"%string := Text (url details)]> album in
  pairs ← labels_and_numbers details;
  let album := <["catnumbers"%string := Texts (pairs.*2)]> album in
  pairs ← labels_and_numbers details;
  let album := <["labels"%string := Texts (pairs.*1)]> album in
  v ← images details;
  let album :=
    <["images"%string := match v with Some uris => Texts uris | None => NoValue end]>
      album in
  v ← year self;
  let album := <["year"%string := Text v]> album in
  v ← Py.getitem "genres" (Details.genres details);
  let album := <["genres"%string := Texts v]> album in
  v ← Py.getitem "styles" (Details.styles details);
  let album := <["styles"%string := Texts v]> album in
  v ← Py.getitem "country" (Details.country details);
  let album := <["year"%string := Text v]> album in
  let album :=
    match Details.notes details with
    | Some notes => <["notes"%string := Text notes]> album
    | None => album
    end in
  v ← disctotal self;
  let album := <["disctotal"%string := Number v]> album in
  v ← is_compilation self;
  let album := <["is_compilation"%string := Flag v]> album in
  _ ← discs_and_tracks self;
  Ok album.

(** ** Vocabulary of the properties *)

(** The character [c] occurs in [s]. *)
Definition occurs (c : ascii) (s : string) : Prop :=
  ∃ a b, s = a +:+ String c b.

(** [s] is empty or starts with a character that cannot continue a
    duplicate suffix: neither a digit nor a parenthesis. *)
Definition starts_apart (s : string) : bool :=
  match s with
  | EmptyString => true
  | String c _ =>
      negb (Py.is_digit c || Ascii.eqb c "(" || Ascii.eqb c ")")
  end.

(** Names in which every duplicate suffix is followed by the end of the
    name or by a character that is neither a digit nor a parenthesis:
    [base] holds no suffix, [suffix] is one, and the rest is again such a
    name. *)
Inductive separated : string → Prop :=
| separated_plain (s : string) :
    clean_duplicate_handling s = s → separated s
| separated_suffix (base suffix rest : string) :
    clean_duplicate_handling base = base →
    Re.duplicate_at suffix = Some EmptyString →
    starts_apart rest = true →
    separated rest →
    separated (base +:+ suffix +:+ rest).

(** The entries of type "Track" with their [enumerate] numbers. *)
Definition enumerated (self : DiscogsAlbum) : list (nat * Entry.t) :=
  zip (seq 0 (length (typed_tracks self))) (typed_tracks self).

(** The title of the last disc subtitle among [entries], if any. *)
Definition last_subtitle (entries : list Entry.t) : option string :=
  Entry.title <$> last (filter (λ t, is_subtitle t = true) entries).

(** The entries the loop turns into tracks, from entry number [i] on with
    [pending] the subtitle in force: each comes with its number and with
    the subtitle in force when the loop reaches it. *)
Fixpoint scan (i : nat) (pending : option string) (ts : list Entry.t)
    : list (nat * option string * Entry.t) :=
  match ts with
  | [] => []
  | t :: ts' =>
      if is_subtitle t then scan (S i) (Some (Entry.title t)) ts'
      else (i, pending, t) :: scan (S i) pending ts'
  end.

(** The track the loop body builds for entry [t], numbered [i], while
    [pending] is in force. *)
Definition maps_to (self : DiscogsAlbum)
    (item : nat * option string * Entry.t) (track : Track.t) : Prop :=
  Track.position track = (item.1.1 + 1)%nat
  ∧ Track.title track = Entry.title item.2
  ∧ Track.discsubtitle track = subtitle_attribute item.1.2
  ∧ Track.artist track = _gen_artist (Entry.artists item.2)
  ∧ (∃ first,
        head (Entry.artists item.2) = Some first
        ∧ Track.sortartist track = SortName (clean_name (Artist.name first)))
  ∧ numbering self item.2 = Ok (Track.tracknumber track, Track.discnumber track).

(** The track sequence a release maps to, by either loop. *)
Definition track_sequence (self : DiscogsAlbum) (track_list : list Track.t) : Prop :=
  (tracks self).1 = Ok track_list ∨ discs_and_tracks self = Ok track_list.

(** ** Sample catalog data *)

Definition artist_x : Artist.t := {| Artist.name := "X" |}.

Definition entry (position title duration : string) (credits : list Artist.t)
    : Entry.t :=
  {| Entry.type := "Track"; Entry.title := title; Entry.position := position;
     Entry.duration := duration; Entry.artists := credits |}.

(** A release by artist X with one format of quantity [qty]. *)
Definition sample (year : option Py.scalar) (qty : string)
    (descriptions : option (list string)) (first : string)
    (tracklist : list Entry.t) : DiscogsAlbum :=
  __init__
    {| Release.data :=
         {| Data.year := year;
            Data.formats :=
              [ {| Format.qty := qty; Format.descriptions := descriptions |} ];
            Data.artists := [ {| Artist.name := first |} ] |};
       Release.artists := [ {| Artist.name := first |} ];
       Release.tracklist := tracklist |}.

(** A single-disc release whose tracklist opens with a disc subtitle. *)
Definition one_disc_subtitled : DiscogsAlbum :=
  sample None "1" None "X"
    [ entry "" "Disc One" "" [artist_x];
      entry "1" "Song" "3:00" [artist_x] ].

(** A two-disc release with one subtitle, ahead of the first disc. *)
Definition two_discs_subtitled : DiscogsAlbum :=
  sample None "2" None "X"
    [ entry "" "Disc One" "" [artist_x];
      entry "1-1" "A" "3:00" [artist_x];
      entry "2-1" "B" "3:00" [artist_x] ].



(** A single-disc release with one credited track. *)
Definition one_track : DiscogsAlbum :=
  sample None "1" None "X" [ entry "1" "Song" "3:00" [artist_x] ].

(** The end-to-end scenario of the specification: two discs, three tracks,
    the last two without artists of their own. *)
Definition scenario : DiscogsAlbum :=
  sample None "2" None "X"
    [ entry "1-1" "A" "" [artist_x];
      entry "1-2" "B" "" [];
      entry "2-1" "C" "" [] ].

(** Every character of [s] is a decimal digit. *)
Fixpoint all_digits (s : string) : bool :=
  match s with
  | EmptyString => true
  | String c r => Py.is_digit c && all_digits r
  end.

(** The release of the class docstring, with one track. *)
Definition blunted_dummies : DiscogsAlbum :=
  sample (Some (Py.Int 1993)) "1" None "Blunted Dummies"
    [ entry "1" "House For All (Original Mix)" "5:00"
        [ {| Artist.name := "Blunted Dummies" |} ] ].

Definition blunted_dummies_details : Details.t :=
  {| Details.id := Py.Int 40522;
     Details.title := "House For All";
     Details.labels :=
       Some [ {| Label.name := "Definitive Recordings (2)";
                 Label.catno := "12DEF006" |} ];
     Details.images := Some [ {| Image.uri := Some "cover.jpg"%string |} ];
     Details.master_id := None;
     Details.genres := Some [ "Electronic"%string ];
     Details.styles := Some [ "House"%string ];
     Details.country := Some "Canada"%string;
     Details.notes := None |}.

(** A release whose payload credits no artist and whose only format is
    tagged as a compilation. *)
Definition uncredited_compilation : DiscogsAlbum :=
  __init__
    {| Release.data :=
         {| Data.year := None;
            Data.formats :=
              [ {| Format.qty := "1";
                   Format.descriptions := Some [ "compilation"%string ] |} ];
            Data.artists := [] |};
       Release.artists := [];
       Release.tracklist := [] |}.

(** * Properties *)

(** ** Built-ins and patterns on sample inputs *)

Example find_examples :
  Py.find "-" "12-3-4" = 2 ∧ Py.find "." "12-3" = -1.
Proof. split; reflexivity. Qed.

Example slice_examples :
  Py.slice_from "12-34" 3 = "34"%string
  ∧ Py.slice_to "12-34" 2 = "12"%string
  ∧ Py.slice_to "12-34" (-1) = "12-3"%string
  ∧ Py.slice_from "12" 7 = EmptyString.
Proof. repeat split; reflexivity. Qed.

Example int_examples :
  Py.int "12" = Ok 12 ∧ Py.int " 07 " = Ok 7 ∧ Py.int "-3" = Ok (-3)
  ∧ Py.int EmptyString = Raise ValueError
  ∧ Py.int "A1" = Raise ValueError
  ∧ Py.int "1 2" = Raise ValueError.
Proof. repeat split; reflexivity. Qed.

Example str_examples :
  Py.str (Py.Int 1993) = "1993"%string ∧ Py.str (Py.Int 0) = "0"%string
  ∧ Py.str (Py.Int (-5)) = "-5"%string.
Proof. repeat split; reflexivity. Qed.

Example pattern_examples :
  Re.duplicate_at " (12) x" = Some " x"%string
  ∧ Re.duplicate_at " ()" = None
  ∧ Re.search_the "Aphex Twin, The" = Some "Aphex Twin"%string
  ∧ Re.search_the "Aphex Twin, The " = None
  ∧ Re.match_year "19930" = Some "1993"%string
  ∧ Re.match_year "193" = None.
Proof. repeat split; reflexivity. Qed.

(** ** Strings *)

Lemma append_nil_l (s : string) : "" +:+ s = s.
Proof. reflexivity. Qed.

Lemma append_cons (c : ascii) (a b : string) :
  String c a +:+ b = String c (a +:+ b).
Proof. reflexivity. Qed.

#[local] Ltac string_ind a :=
  induction a as [|? a ?];
  rewrite ?append_nil_l, ?append_cons; simpl; try congruence.

Lemma append_nil_r (s : string) : s +:+ "" = s.
Proof. string_ind s. Qed.

Lemma append_assoc (a b c : string) : (a +:+ b) +:+ c = a +:+ (b +:+ c).
Proof. string_ind a. Qed.

Lemma length_append (a b : string) :
  String.length (a +:+ b) = (String.length a + String.length b)%nat.
Proof. string_ind a. Qed.

Lemma take_append (a b : string) : Py.take (String.length a) (a +:+ b) = a.
Proof. string_ind a. Qed.

Lemma drop_append (a b : string) : Py.drop (String.length a) (a +:+ b) = b.
Proof. string_ind a. Qed.

Lemma bound_inside (len n : nat) :
  (n ≤ len)%nat → Py.bound (Z.of_nat len) (Z.of_nat n) = n.
Proof.
  intros Hn. unfold Py.bound.
  destruct (Z.ltb_spec (Z.of_nat n) 0) as [Hneg|_]; [lia|].
  rewrite Z.min_l by lia. apply Nat2Z.id.
Qed.

Lemma slice_to_append (a b : string) :
  Py.slice_to (a +:+ b) (Z.of_nat (String.length a)) = a.
Proof.
  unfold Py.slice_to. rewrite bound_inside; [apply take_append|].
  rewrite length_append. lia.
Qed.

Lemma slice_from_append (a b : string) :
  Py.slice_from (a +:+ b) (Z.of_nat (String.length a)) = b.
Proof.
  unfold Py.slice_from. rewrite bound_inside; [apply drop_append|].
  rewrite length_append. lia.
Qed.

Lemma occurs_cons (c x : ascii) (s : string) :
  occurs c (String x s) ↔ x = c ∨ occurs c s.
Proof.
  split.
  - intros ([|y a] & b & Heq);
      rewrite ?append_nil_l, ?append_cons in Heq; injection Heq as -> Hs.
    + by left.
    + right. by exists a, b.
  - intros [->|(a & b & ->)].
    + by exists ""%string, s.
    + by exists (String x a), b.
Qed.

Lemma occurs_nil (c : ascii) : ¬ occurs c "".
Proof.
  intros ([|y a] & b & Heq);
    rewrite ?append_nil_l, ?append_cons in Heq; discriminate Heq.
Qed.

(** [find] returns [-1] exactly when the character does not occur, and
    otherwise the length of the text before its first occurrence. *)
Lemma find_spec (c : ascii) (s : string) :
  (Py.find c s = -1 ∧ ¬ occurs c s)
  ∨ (∃ a b, s = a +:+ String c b ∧ ¬ occurs c a
            ∧ Py.find c s = Z.of_nat (String.length a)).
Proof.
  induction s as [|x s IH]; simpl.
  - left. split; [reflexivity | apply occurs_nil].
  - destruct (Ascii.eqb_spec x c) as [->|Hne].
    + right. exists ""%string, s. repeat split. apply occurs_nil.
    + destruct IH as [[Hf Hno]|(a & b & -> & Hno & Hf)].
      * left. rewrite Hf. simpl. split; [reflexivity|].
        rewrite occurs_cons. tauto.
      * right. exists (String x a), b. rewrite Hf. simpl.
        destruct (Z.eqb_spec (Z.of_nat (String.length a)) (-1)) as [Hbad|_]; [lia|].
        repeat split; [|lia]. rewrite occurs_cons. tauto.
Qed.

Lemma occurs_find (c : ascii) (s : string) : occurs c s ↔ Py.find c s ≠ -1.
Proof.
  destruct (find_spec c s) as [[Hf Hno]|(a & b & -> & _ & Hf)].
  - rewrite Hf. tauto.
  - rewrite Hf. split; [lia|]. intros _. by exists a, b.
Qed.

Lemma slice_from_after (a b : string) (c : ascii) :
  Py.slice_from (a +:+ String c b) (Z.of_nat (String.length a) + 1) = b.
Proof.
  replace (a +:+ String c b) with ((a +:+ String c "") +:+ b)
    by (by rewrite append_assoc).
  replace (Z.of_nat (String.length a) + 1)
    with (Z.of_nat (String.length (a +:+ String c "")))
    by (rewrite length_append; simpl; lia).
  apply slice_from_append.
Qed.

(** ** The position parser *)

(** C5 (amended). For every position token the parser splits at the first
    "-", else at the first "."; the text before the split point is the
    disc-number substring and the text after it the track-number
    substring. When neither delimiter occurs the split point is 0 and the
    disc-number substring is empty: the parser supplies no default disc. *)
Theorem disc_and_track_no_split (position : string) :
  let pos := disc_and_track_no position in
  (∃ disc track,
      position = disc +:+ String "-" track ∧ ¬ occurs "-" disc
      ∧ Pos.discnumber pos = disc ∧ Pos.tracknumber pos = track)
  ∨ (¬ occurs "-" position
     ∧ ∃ disc track,
         position = disc +:+ String "." track ∧ ¬ occurs "." disc
         ∧ Pos.discnumber pos = disc ∧ Pos.tracknumber pos = track)
  ∨ (¬ occurs "-" position ∧ ¬ occurs "." position
     ∧ Pos.discnumber pos = ""%string).
Proof.
  unfold disc_and_track_no. cbv zeta.
  destruct (find_spec "-" position) as [[Hdash Hnodash]|(disc & track & -> & Hfirst & Hdash)].
  - rewrite Hdash. change (-1 =? -1) with true. cbv iota.
    destruct (find_spec "." position) as [[Hdot Hnodot]|(disc & track & -> & Hfirst & Hdot)].
    + rewrite Hdot. change (-1 =? -1) with true. cbv iota.
      right; right. repeat split; try assumption.
      unfold Py.slice_to. simpl. by destruct position.
    + rewrite Hdot.
      destruct (Z.eqb_spec (Z.of_nat (String.length disc)) (-1)) as [Hbad|_]; [lia|].
      cbn [Pos.discnumber Pos.tracknumber].
      rewrite slice_from_after, slice_to_append.
      right; left. split; [assumption|].
      by exists disc, track.
  - rewrite Hdash.
    destruct (Z.eqb_spec (Z.of_nat (String.length disc)) (-1)) as [Hbad|_]; [lia|].
    cbv iota.
    destruct (Z.eqb_spec (Z.of_nat (String.length disc)) (-1)) as [Hbad|_]; [lia|].
    cbn [Pos.discnumber Pos.tracknumber].
    rewrite slice_from_after, slice_to_append.
    left. by exists disc, track.
Qed.

(** Without a delimiter the track-number substring is the token from its
    second character on. *)
Lemma disc_and_track_no_plain (position : string) :
  ¬ occurs "-" position → ¬ occurs "." position →
  disc_and_track_no position
  = {| Pos.tracknumber := Py.slice_from position 1; Pos.discnumber := "" |}.
Proof.
  rewrite !occurs_find. intros Hdash Hdot.
  unfold disc_and_track_no.
  destruct (Z.eqb_spec (Py.find "-" position) (-1)) as [_|Hne]; [|by destruct Hdash].
  destruct (Z.eqb_spec (Py.find "." position) (-1)) as [_|Hne]; [|by destruct Hdot].
  simpl. f_equal. unfold Py.slice_to. simpl. by destruct position.
Qed.

(** C5, as stated, fails on the token "12": no delimiter occurs, yet the
    track-number substring is "2", not the whole token, and the
    disc-number substring is empty, which does not read as disc 1. *)
Lemma disc_and_track_no_whole_token_fails :
  ¬ occurs "-" "12" ∧ ¬ occurs "." "12"
  ∧ disc_and_track_no "12" = {| Pos.tracknumber := "2"; Pos.discnumber := "" |}
  ∧ Pos.tracknumber (disc_and_track_no "12") ≠ "12"%string
  ∧ Py.int (Pos.discnumber (disc_and_track_no "12")) ≠ Ok 1.
Proof.
  rewrite !occurs_find. repeat split; vm_compute; congruence.
Qed.

(** ** The duplicate-suffix pattern *)

Lemma space_apart (c : ascii) (s : string) :
  Py.is_space c = true → starts_apart (String c s) = true.
Proof.
  destruct c as [[] [] [] [] [] [] [] []]; vm_compute; congruence.
Qed.

Lemma digits_close_app_some (a b r : string) :
  Re.digits_close a = Some r → Re.digits_close (a +:+ b) = Some (r +:+ b).
Proof.
  induction a as [|x a IH]; [discriminate|].
  rewrite append_cons. simpl.
  destruct (Py.is_digit x); [exact IH|].
  destruct (Ascii.eqb x ")"); [|discriminate].
  by intros [= ->].
Qed.

Lemma digits_close_app_none (a b : string) :
  starts_apart b = true →
  Re.digits_close a = None → Re.digits_close (a +:+ b) = None.
Proof.
  intros Hb. induction a as [|x a IH].
  - intros _. rewrite append_nil_l. destruct b as [|y b]; [reflexivity|].
    simpl in *. destruct (Py.is_digit y); [discriminate|].
    destruct (Ascii.eqb y "("); [discriminate|].
    destruct (Ascii.eqb y ")"); [discriminate|reflexivity].
  - rewrite append_cons. simpl.
    destruct (Py.is_digit x); [exact IH|].
    by destruct (Ascii.eqb x ")").
Qed.

Lemma digits_close_app (a b : string) :
  starts_apart b = true →
  Re.digits_close (a +:+ b) = (λ r, r +:+ b) <$> Re.digits_close a.
Proof.
  intros Hb. destruct (Re.digits_close a) as [r|] eqn:Ha; simpl.
  - by apply digits_close_app_some.
  - by apply digits_close_app_none.
Qed.

(** The text after a match is a proper suffix. *)
Lemma digits_close_suffix (a r : string) :
  Re.digits_close a = Some r → ∃ m, a = String.append m r ∧ m ≠ ""%string.
Proof.
  revert r. induction a as [|x a IH]; intros r; [discriminate|]. simpl.
  destruct (Py.is_digit x).
  - intros (m & -> & _)%IH. by exists (String x m).
  - destruct (Ascii.eqb x ")"); [|discriminate].
    intros [= ->]. by exists (String x "").
Qed.

Lemma duplicate_at_suffix (s r : string) :
  Re.duplicate_at s = Some r → ∃ m, s = String.append m r ∧ m ≠ ""%string.
Proof.
  destruct s as [|w [|p [|d s]]]; try discriminate. simpl.
  destruct (_ && _); [|discriminate].
  intros (m & -> & _)%digits_close_suffix.
  by exists (String w (String p (String d m))).
Qed.

Lemma duplicate_at_apart (s r : string) :
  Re.duplicate_at s = Some r → starts_apart s = true.
Proof.
  destruct s as [|w [|p [|d s]]]; try discriminate.
  unfold Re.duplicate_at.
  destruct (Py.is_space w) eqn:Hw; [|discriminate].
  intros _. by apply space_apart.
Qed.

Lemma duplicate_at_app_some (a b r : string) :
  Re.duplicate_at a = Some r → Re.duplicate_at (a +:+ b) = Some (r +:+ b).
Proof.
  destruct a as [|w [|p [|d a]]]; try discriminate.
  rewrite !append_cons. simpl.
  destruct (_ && _); [|discriminate].
  apply digits_close_app_some.
Qed.

(** A match cannot run from [a] into a text that starts apart. *)
Lemma duplicate_at_app (a b : string) :
  a ≠ ""%string → starts_apart b = true →
  Re.duplicate_at (a +:+ b) = (λ r, r +:+ b) <$> Re.duplicate_at a.
Proof.
  intros Ha Hb. destruct a as [|w [|p [|d a]]]; [done| | |].
  - rewrite append_cons, append_nil_l.
    destruct b as [|y [|z b]]; try reflexivity.
    simpl in *. destruct (Ascii.eqb y "(").
    + by rewrite !orb_true_r in Hb.
    + by rewrite andb_false_r.
  - rewrite !append_cons, append_nil_l.
    destruct b as [|y b]; [reflexivity|].
    simpl in *. destruct (Py.is_digit y); [discriminate|].
    by rewrite andb_false_r.
  - rewrite !append_cons. simpl.
    destruct (_ && _); [|reflexivity].
    by apply digits_close_app.
Qed.

Lemma sub_duplicate_skip (m r : string) :
  Re.sub_duplicate (String.length m) (m +:+ r) = Re.sub_duplicate 0 r.
Proof.
  induction m as [|x m IH]; [reflexivity|].
  rewrite append_cons. simpl. exact IH.
Qed.

(** The scan drops a match at its head and resumes after it. *)
Lemma sub_duplicate_match (s r : string) :
  Re.duplicate_at s = Some r →
  Re.sub_duplicate 0 s = Re.sub_duplicate 0 r.
Proof.
  intros Hm. destruct (duplicate_at_suffix _ _ Hm) as (m & -> & Hne).
  destruct m as [|x m]; [done|].
  rewrite append_cons in *.
  cbn [Re.sub_duplicate]. rewrite Hm.
  rewrite length_append.
  replace (String.length m + String.length r - String.length r)%nat
    with (String.length m) by lia.
  apply sub_duplicate_skip.
Qed.

Lemma sub_duplicate_plain (c : ascii) (s : string) :
  Re.duplicate_at (String c s) = None →
  Re.sub_duplicate 0 (String c s) = String c (Re.sub_duplicate 0 s).
Proof. intros Hm. cbn [Re.sub_duplicate]. by rewrite Hm. Qed.

Lemma sub_duplicate_app (k : nat) (a b : string) :
  starts_apart b = true → (k ≤ String.length a)%nat →
  Re.sub_duplicate k (a +:+ b)
  = Re.sub_duplicate k a +:+ Re.sub_duplicate 0 b.
Proof.
  intros Hb. revert k. induction a as [|x a IH]; intros k Hk.
  - simpl in Hk. by replace k with 0%nat by lia.
  - rewrite append_cons. destruct k as [|k].
    + cbn [Re.sub_duplicate]. rewrite <- append_cons.
      rewrite duplicate_at_app by done.
      destruct (Re.duplicate_at (String x a)) as [r|] eqn:Hm; simpl.
      * destruct (duplicate_at_suffix _ _ Hm) as ([|y m] & Heq & Hne); [done|].
        rewrite append_cons in Heq. injection Heq as _ ->.
        rewrite !length_append.
        replace (String.length m + String.length r + String.length b
                 - (String.length r + String.length b))%nat
          with (String.length m + String.length r - String.length r)%nat by lia.
        apply IH. rewrite length_append. lia.
      * rewrite append_cons. f_equal. apply IH. lia.
    + cbn [Re.sub_duplicate]. apply IH. simpl in Hk. lia.
Qed.

(** Cleaning distributes over a cut before a character that is neither a
    digit nor a parenthesis. *)
Lemma clean_duplicate_handling_app (a b : string) :
  starts_apart b = true →
  clean_duplicate_handling (a +:+ b)
  = clean_duplicate_handling a +:+ clean_duplicate_handling b.
Proof. intros Hb. apply sub_duplicate_app; [done|lia]. Qed.

Lemma clean_duplicate_handling_suffix (suffix rest : string) :
  Re.duplicate_at suffix = Some ""%string →
  clean_duplicate_handling (suffix +:+ rest) = clean_duplicate_handling rest.
Proof.
  intros Hm. unfold clean_duplicate_handling.
  by rewrite (sub_duplicate_match _ (rest)) by
    (by rewrite (duplicate_at_app_some _ _ _ Hm)).
Qed.

Lemma starts_apart_app (a b : string) :
  starts_apart (a +:+ b) = if decide (a = ""%string) then starts_apart b else starts_apart a.
Proof. by destruct a. Qed.

(** On a separated name, cleaning removes every suffix for good, and what
    is left starts apart if the name did. *)
Lemma separated_clean (s : string) :
  separated s →
  clean_duplicate_handling (clean_duplicate_handling s) = clean_duplicate_handling s
  ∧ (starts_apart s = true → starts_apart (clean_duplicate_handling s) = true).
Proof.
  induction 1 as [s Hs|base suffix rest Hbase Hm Hrest _ [IHidem IHapart]].
  - by rewrite !Hs.
  - assert (clean_duplicate_handling (base +:+ suffix +:+ rest)
            = base +:+ clean_duplicate_handling rest) as ->.
    { rewrite clean_duplicate_handling_app.
      - by rewrite Hbase, clean_duplicate_handling_suffix.
      - rewrite starts_apart_app. case_decide as Hempty.
        + subst suffix. discriminate Hm.
        + by eapply duplicate_at_apart. }
    split.
    + rewrite clean_duplicate_handling_app by auto.
      by rewrite Hbase, IHidem.
    + rewrite !starts_apart_app.
      case_decide; [intros _; auto | done].
Qed.

(** C6 (amended). [clean_duplicate_handling] is idempotent on every name in
    which each duplicate suffix is followed by the end of the name or by a
    character that is neither a digit nor a parenthesis. *)
Theorem clean_duplicate_handling_idempotent (x : string) :
  separated x →
  clean_duplicate_handling (clean_duplicate_handling x)
  = clean_duplicate_handling x.
Proof. intros Hx. by apply separated_clean. Qed.

(** The names the catalog builds, a name without suffix followed by one
    suffix, are separated. *)
Lemma separated_one_suffix (base suffix : string) :
  clean_duplicate_handling base = base →
  Re.duplicate_at suffix = Some ""%string →
  separated (base +:+ suffix).
Proof.
  intros Hbase Hm. rewrite <- (append_nil_r suffix).
  apply separated_suffix; try done. by apply separated_plain.
Qed.

Lemma clean_duplicate_handling_idempotent_witness :
  separated "John (1) & Paul (22)"
  ∧ clean_duplicate_handling (clean_duplicate_handling "John (1) & Paul (22)")
    = clean_duplicate_handling "John (1) & Paul (22)".
Proof.
  assert (separated "John (1) & Paul (22)") as Hsep.
  { apply (separated_suffix "John" " (1)" " & Paul (22)"); try reflexivity.
    apply (separated_one_suffix " & Paul" " (22)"); reflexivity. }
  split; [exact Hsep|].
  exact (clean_duplicate_handling_idempotent _ Hsep).
Defined.

(** C6, as stated, fails on a suffix nested in an unfinished one: the first
    pass turns " (1 (2))" into " (1)", the second pass removes that too. *)
Lemma clean_duplicate_handling_not_idempotent :
  clean_duplicate_handling " (1 (2))" = " (1)"%string
  ∧ clean_duplicate_handling (clean_duplicate_handling " (1 (2))")
    ≠ clean_duplicate_handling " (1 (2))".
Proof. split; [reflexivity | by vm_compute]. Qed.

(** ** Name cleaning *)

Example clean_name_examples :
  clean_name "Goldie (12)" = "Goldie"%string
  ∧ clean_name "Aphex Twin, The" = "The Aphex Twin"%string
  ∧ clean_name "Goldie (12), The" = "The Goldie"%string
  ∧ clean_name "Blunted Dummies" = "Blunted Dummies"%string.
Proof. repeat split; reflexivity. Qed.

(** C7 (amended). The release-level sort artist is
    [clean_duplicate_handling] of the first credited artist's raw name. The
    ", The" rewrite is not applied: for a first artist named "X, The" the
    sort artist is the cleaned X followed by ", The". *)
Theorem sort_artist_first (first : Artist.t) (others : list Artist.t) :
  sort_artist (first :: others)
  = Ok (clean_duplicate_handling (Artist.name first))
  ∧ ∀ x, Artist.name first = x +:+ ", The" →
         sort_artist (first :: others)
         = Ok (clean_duplicate_handling x +:+ ", The").
Proof.
  split; [reflexivity|].
  intros x Hname. unfold sort_artist. simpl. rewrite Hname.
  by rewrite clean_duplicate_handling_app.
Qed.

Lemma sort_artist_first_witness :
  sort_artist [ {| Artist.name := "Aphex Twin (2), The" |} ]
  = Ok "Aphex Twin, The"%string.
Proof.
  exact (proj2 (sort_artist_first {| Artist.name := "Aphex Twin (2), The" |} [])
           "Aphex Twin (2)"%string eq_refl).
Defined.

(** C7, as stated, fails on the first artist "Aphex Twin, The": the sort
    artist keeps the name, [clean_name] would give "The Aphex Twin". *)
Lemma sort_artist_is_not_clean_name :
  sort_artist [ {| Artist.name := "Aphex Twin, The" |} ]
  = Ok "Aphex Twin, The"%string
  ∧ sort_artist [ {| Artist.name := "Aphex Twin, The" |} ]
    ≠ Ok (clean_name "Aphex Twin, The")
  ∧ sort_artist [ {| Artist.name := "Aphex Twin, The" |} ]
    ≠ Ok "The Aphex Twin"%string.
Proof. repeat split; by vm_compute. Qed.

(** ** Release-level facts *)

Lemma existsb_eqb_elem (x : string) (l : list string) :
  existsb (λ y, String.eqb y x) l = true ↔ x ∈ l.
Proof.
  rewrite existsb_exists. split.
  - intros (y & Hin & ->%String.eqb_eq). by apply list_elem_of_In.
  - intros Hin. exists x. split; [by apply list_elem_of_In | apply String.eqb_refl].
Qed.

(** C9 (amended). For a release whose payload credits at least one artist,
    [is_compilation] returns, and it returns true exactly when the first
    credited artist's raw name is "Various" or some format carries the
    descriptor "compilation"; so it is false for "Various Artists" when no
    descriptor equals "compilation". *)
Theorem is_compilation_iff (self : DiscogsAlbum) (first : Artist.t)
    (others : list Artist.t) :
  Data.artists (Release.data (release self)) = first :: others →
  ∃ b, is_compilation self = Ok b
       ∧ (b = true ↔
          Artist.name first = "Various"%string
          ∨ ∃ format ds,
              format ∈ Data.formats (Release.data (release self))
              ∧ Format.descriptions format = Some ds
              ∧ "compilation"%string ∈ ds)
       ∧ (Artist.name first = "Various Artists"%string →
          (∀ format ds,
              format ∈ Data.formats (Release.data (release self)) →
              Format.descriptions format = Some ds →
              "compilation"%string ∉ ds) →
          b = false).
Proof.
  intros Hfirst. unfold is_compilation. rewrite Hfirst. simpl.
  set (tagged := existsb _ _).
  assert (tagged = true ↔
          ∃ format ds,
            format ∈ Data.formats (Release.data (release self))
            ∧ Format.descriptions format = Some ds
            ∧ "compilation"%string ∈ ds) as Htagged.
  { unfold tagged. rewrite existsb_exists. split.
    - intros (format & Hin & Hdesc).
      destruct (Format.descriptions format) as [ds|] eqn:Hds; [|discriminate].
      exists format, ds. split; [by apply list_elem_of_In|].
      split; [exact Hds|]. by apply existsb_eqb_elem.
    - intros (format & ds & Hin & Hds & Hc). exists format.
      split; [by apply list_elem_of_In|]. rewrite Hds.
      by apply existsb_eqb_elem. }
  destruct (String.eqb_spec (Artist.name first) "Various") as [Hv|Hv].
  - exists true. split; [reflexivity|]. split.
    + split; [by left | done].
    + rewrite Hv. discriminate.
  - exists tagged. split; [reflexivity|]. split.
    + split.
      * intros Ht. right. by apply Htagged.
      * intros [Hname|Hex]; [done | by apply Htagged].
    + intros _ Hnone. destruct tagged; [|reflexivity].
      destruct (proj1 Htagged eq_refl) as (format & ds & Hin & Hds & Hc).
      by destruct (Hnone format ds).
Qed.

Lemma is_compilation_iff_witness :
  ∃ b, is_compilation (sample None "1" (Some ["Album"; "compilation"]%string) "Blunted Dummies" []) = Ok b
       ∧ (b = true ↔
          "Blunted Dummies"%string = "Various"%string
          ∨ ∃ format ds,
              format ∈ [ {| Format.qty := "1"; Format.descriptions := Some ["Album"; "compilation"]%string |} ]
              ∧ Format.descriptions format = Some ds
              ∧ "compilation"%string ∈ ds)
       ∧ ("Blunted Dummies"%string = "Various Artists"%string →
          (∀ format ds,
              format ∈ [ {| Format.qty := "1"; Format.descriptions := Some ["Album"; "compilation"]%string |} ] →
              Format.descriptions format = Some ds →
              "compilation"%string ∉ ds) →
          b = false).
Proof.
  exact (is_compilation_iff
           (sample None "1" (Some ["Album"; "compilation"]%string) "Blunted Dummies" [])
           {| Artist.name := "Blunted Dummies" |} [] eq_refl).
Defined.

(** C9, as stated, fails on a release without credited artist whose format
    is tagged "compilation": a format carries the descriptor, yet the
    first statement of [is_compilation] reads the first artist and raises
    [IndexError] before the formats are looked at. *)
Lemma is_compilation_needs_artist :
  (∃ format ds,
      format ∈ Data.formats (Release.data (release uncredited_compilation))
      ∧ Format.descriptions format = Some ds
      ∧ "compilation"%string ∈ ds)
  ∧ is_compilation uncredited_compilation = Raise IndexError
  ∧ is_compilation uncredited_compilation ≠ Ok true.
Proof.
  split; [|split; [reflexivity | discriminate]].
  eexists _, _. split; [apply list_elem_of_here|].
  split; [reflexivity | apply list_elem_of_here].
Qed.

Example is_compilation_examples :
  is_compilation (sample None "1" None "Various" []) = Ok true
  ∧ is_compilation (sample None "1" None "Various Artists" []) = Ok false
  ∧ is_compilation (sample None "1" (Some ["compilation"]%string) "Blunted Dummies" []) = Ok true
  ∧ is_compilation (sample None "1" (Some ["Compilation"]%string) "Blunted Dummies" []) = Ok false.
Proof. repeat split; reflexivity. Qed.

(** Every outcome of [year]: the handler for [IndexError] is never entered,
    so the sentinel "1900" is returned only when the field itself starts
    with 1900. *)
Lemma year_outcomes (self : DiscogsAlbum) :
  year self =
  match Data.year (Release.data (release self)) with
  | None => Raise (KeyError "year")
  | Some y =>
      match Re.match_year (Py.str y) with
      | Some group0 => Ok group0
      | None => Raise (AttributeError "group")
      end
  end.
Proof.
  unfold year. destruct (Data.year _) as [y|]; [|reflexivity]. simpl.
  by destruct (Re.match_year _).
Qed.

(** C4 fails on the code. A year field without four leading digits, such
    as the 0 the catalog stores for an unknown year, makes [match] return
    [None], and [None.group] raises [AttributeError]; an absent field
    raises [KeyError]. The handler catches [IndexError] only, so neither
    reaches the sentinel. A field that starts with four digits is
    returned as the claim says. *)
Theorem year_raises_without_match :
  year (sample (Some (Py.Int 0)) "1" None "X" []) = Raise (AttributeError "group")
  ∧ year (sample (Some (Py.Str "unknown")) "1" None "X" []) = Raise (AttributeError "group")
  ∧ year (sample None "1" None "X" []) = Raise (KeyError "year")
  ∧ year (sample (Some (Py.Int 1993)) "1" None "X" []) = Ok "1993"%string.
Proof. repeat split; reflexivity. Qed.

(** ** The track loops *)

Lemma track_artist_credited (self : DiscogsAlbum) (t : Entry.t)
    (first : Artist.t) (others : list Artist.t) :
  Entry.artists t = first :: others →
  track_artist self t
  = Ok (SortName (clean_name (Artist.name first)), _gen_artist (Entry.artists t)).
Proof. intros Hc. unfold track_artist. by rewrite Hc. Qed.

(** The handler of the [try] block reads [self.artist], which does not
    exist: an entry without artists ends the loop with [AttributeError]. *)
Lemma track_artist_uncredited (self : DiscogsAlbum) (t : Entry.t) :
  Entry.artists t = [] →
  track_artist self t = Raise (AttributeError "artist").
Proof. intros Hc. unfold track_artist. by rewrite Hc. Qed.

Lemma track_artist_outcomes (self : DiscogsAlbum) (t : Entry.t) :
  (∃ first, head (Entry.artists t) = Some first
            ∧ track_artist self t
              = Ok (SortName (clean_name (Artist.name first)),
                    _gen_artist (Entry.artists t)))
  ∨ (Entry.artists t = [] ∧ track_artist self t = Raise (AttributeError "artist")).
Proof.
  destruct (Entry.artists t) as [|first others] eqn:Hc.
  - right. split; [reflexivity|]. by apply track_artist_uncredited.
  - left. exists first. split; [reflexivity|].
    rewrite <- Hc. by eapply track_artist_credited.
Qed.

(** The invariant of the loop of [discs_and_tracks]: when it returns, it has
    appended to [track_list], in order, one track for each entry of [scan]. *)
Lemma discs_and_tracks_loop_spec (self : DiscogsAlbum) (ts : list Entry.t) :
  ∀ i pending track_list result,
    discs_and_tracks_loop self i ts pending track_list = Ok result →
    ∃ appended,
      result = track_list ++ appended
      ∧ Forall2 (maps_to self) (scan i pending ts) appended.
Proof.
  induction ts as [|t ts IH]; intros i pending track_list result; simpl.
  - intros [= <-]. exists []. split; [by rewrite app_nil_r | constructor].
  - destruct (track_artist_outcomes self t)
      as [(first & Hfirst & ->)|[_ ->]]; [|discriminate].
    simpl. destruct (is_subtitle t).
    + apply IH.
    + destruct (numbering self t) as [[tracknumber discnumber]|e] eqn:Hn;
        [|discriminate].
      simpl. intros (appended & -> & Hall)%IH.
      eexists (_ :: appended). split; [by rewrite <- app_assoc|].
      constructor; [|exact Hall].
      repeat split; try reflexivity; [by exists first | exact Hn].
Qed.

(** The loop of [tracks] raises at the first entry: the handler fails for
    an entry without artists, and the name [TrackContainer] is not bound. *)
Lemma tracks_loop_raises (self : DiscogsAlbum) (i : nat) (t : Entry.t)
    (ts : list Entry.t) (pending : option string) (track_list : list Track.t) :
  tracks_loop self i (t :: ts) pending track_list
  = (Raise (if decide (Entry.artists t = [])
            then AttributeError "artist" else NameError "TrackContainer"),
     self).
Proof.
  simpl. destruct (track_artist_outcomes self t)
    as [(first & Hfirst & ->)|[Hnone ->]].
  - case_decide as Hc; [by rewrite Hc in Hfirst | reflexivity].
  - case_decide; [reflexivity | done].
Qed.

(** [tracks] returns only for a release without entries of type "Track",
    and then returns the empty list, as [discs_and_tracks] does. *)
Lemma tracks_returns_empty (self : DiscogsAlbum) (track_list : list Track.t) :
  (tracks self).1 = Ok track_list →
  typed_tracks self = [] ∧ track_list = [].
Proof.
  unfold tracks. destruct (typed_tracks self) as [|t ts].
  - simpl. by intros [= <-].
  - rewrite tracks_loop_raises. discriminate.
Qed.

Lemma track_sequence_spec (self : DiscogsAlbum) (track_list : list Track.t) :
  track_sequence self track_list →
  Forall2 (maps_to self) (scan 0 None (typed_tracks self)) track_list.
Proof.
  intros [Ht|Hd].
  - apply tracks_returns_empty in Ht as [-> ->]. constructor.
  - apply discs_and_tracks_loop_spec in Hd as (appended & -> & Hall).
    exact Hall.
Qed.

(** *** The entries that become tracks *)

Lemma scan_enumerated (ts : list Entry.t) :
  ∀ i pending,
    (λ item, (item.1.1, item.2)) <$> scan i pending ts
    = filter (λ it, is_subtitle it.2 = false) (zip (seq i (length ts)) ts).
Proof.
  induction ts as [|t ts IH]; intros i pending; [reflexivity|].
  cbn [scan length seq zip zip_with].
  destruct (is_subtitle t) eqn:Ht.
  - rewrite filter_cons_False by (simpl; congruence). apply IH.
  - rewrite filter_cons_True by done. rewrite fmap_cons. f_equal. apply IH.
Qed.

Lemma scan_lower (ts : list Entry.t) :
  ∀ i pending, Forall (λ item, (i ≤ item.1.1)%nat) (scan i pending ts).
Proof.
  induction ts as [|t ts IH]; intros i pending; simpl; [constructor|].
  destruct (is_subtitle t).
  - eapply Forall_impl; [apply IH|]. simpl. lia.
  - constructor; [simpl; lia|].
    eapply Forall_impl; [apply IH|]. simpl. lia.
Qed.

Lemma scan_increasing (ts : list Entry.t) :
  ∀ i pending j k a b,
    (j < k)%nat →
    scan i pending ts !! j = Some a → scan i pending ts !! k = Some b →
    (a.1.1 < b.1.1)%nat.
Proof.
  induction ts as [|t ts IH]; intros i pending j k a b Hjk; simpl; [done|].
  destruct (is_subtitle t); [by apply IH|].
  destruct k as [|k]; [lia|]. destruct j as [|j]; simpl.
  - intros [= <-] Hb. simpl.
    pose proof (Forall_lookup_1 _ _ _ _ (scan_lower ts (S i) pending) Hb).
    simpl in *. lia.
  - apply IH. lia.
Qed.

Lemma scan_no_subtitle (ts : list Entry.t) :
  (∀ t, t ∈ ts → is_subtitle t = false) →
  ∀ i pending,
    (λ item, (item.1.1 + 1)%nat) <$> scan i pending ts
    = seq (i + 1) (length ts).
Proof.
  induction ts as [|t ts IH]; intros Hall i pending; [reflexivity|].
  simpl. rewrite (Hall t) by apply list_elem_of_here.
  rewrite fmap_cons. simpl. f_equal.
  rewrite IH; [f_equal; lia|].
  intros t' Hin. apply Hall. by apply list_elem_of_further.
Qed.

(** The subtitle in force after the entries [pre], when [pending] was in
    force before them. *)
Lemma scan_prefix (pre : list Entry.t) (t : Entry.t) (post : list Entry.t) :
  is_subtitle t = false →
  ∀ i pending,
    scan i pending (pre ++ t :: post)
      !! length (filter (λ e, is_subtitle e = false) pre)
    = Some ((i + length pre)%nat,
            match last_subtitle pre with
            | Some title => Some title
            | None => pending
            end,
            t).
Proof.
  intros Ht. induction pre as [|e pre IH]; intros i pending.
  - simpl. rewrite Ht. simpl. do 3 f_equal. lia.
  - cbn [app scan]. unfold last_subtitle in *.
    destruct (is_subtitle e) eqn:He.
    + rewrite filter_cons_False by congruence.
      rewrite filter_cons_True by done.
      rewrite IH. rewrite last_cons.
      destruct (last (filter _ pre)); simpl; do 3 f_equal; lia.
    + rewrite filter_cons_True by done.
      rewrite filter_cons_False by congruence.
      cbn [length lookup list_lookup]. rewrite IH.
      do 3 f_equal. simpl. lia.
Qed.

(** A subtitle in force is a non-empty title, so the track receives it. *)
Lemma last_subtitle_attribute (pre : list Entry.t) :
  subtitle_attribute (last_subtitle pre) = last_subtitle pre.
Proof.
  unfold last_subtitle.
  destruct (last (filter _ pre)) as [e|] eqn:Hlast; [|reflexivity].
  apply last_Some_elem_of, list_elem_of_filter in Hlast as [He _].
  simpl. unfold is_subtitle in He.
  by destruct (Py.truthy (Entry.title e)).
Qed.

Lemma maps_to_positions (self : DiscogsAlbum)
    (items : list (nat * option string * Entry.t)) (track_list : list Track.t) :
  Forall2 (maps_to self) items track_list →
  Track.position <$> track_list = (λ item, (item.1.1 + 1)%nat) <$> items.
Proof.
  induction 1 as [|item track items track_list Hm _ IH]; [reflexivity|].
  rewrite !fmap_cons, IH. f_equal. apply Hm.
Qed.

Lemma scan_entries (ts : list Entry.t) :
  ∀ i pending item, item ∈ scan i pending ts → item.2 ∈ ts.
Proof.
  induction ts as [|t ts IH]; intros i pending item; simpl.
  - by intros ?%elem_of_nil.
  - destruct (is_subtitle t).
    + intros Hin%IH. by apply list_elem_of_further.
    + intros [->|Hin%IH]%elem_of_cons.
      * apply list_elem_of_here.
      * by apply list_elem_of_further.
Qed.

(** The numbering examples of the specification, with every entry
    credited: a release of two discs with the positions "1-1", "1-2" and
    "2-1", and a single-disc release. *)
Example discs_and_tracks_examples :
  fmap (M := list)
    (λ track, (Track.position track, Track.discnumber track, Track.tracknumber track))
  <$> discs_and_tracks
        (sample None "2" None "X"
           [ entry "1-1" "A" "3:00" [artist_x];
             entry "1-2" "B" "3:00" [artist_x];
             entry "2-1" "C" "3:00" [artist_x] ])
  = Ok [ (1%nat, 1, 1); (2%nat, 1, 2); (3%nat, 2, 1) ]
  ∧ fmap (M := list)
      (λ track, (Track.position track, Track.discnumber track, Track.tracknumber track))
    <$> discs_and_tracks
          (sample None "1" None "X"
             [ entry "1" "A" "3:00" [artist_x];
               entry "02" "B" "3:00" [artist_x] ])
    = Ok [ (1%nat, 1, 1); (2%nat, 1, 2) ].
Proof. split; reflexivity. Qed.

Lemma scan_entries_filter (ts : list Entry.t) :
  ∀ i pending,
    (λ item, item.2) <$> scan i pending ts
    = filter (λ t, is_subtitle t = false) ts.
Proof.
  induction ts as [|t ts IH]; intros i pending; [reflexivity|].
  cbn [scan]. destruct (is_subtitle t) eqn:Ht.
  - rewrite filter_cons_False by congruence. apply IH.
  - rewrite filter_cons_True by done. rewrite fmap_cons. f_equal. apply IH.
Qed.

(** C1 (amended). For every release the emitted track sequence keeps the
    catalog order of the entries of type "Track" that are not disc
    subtitles, and the position of each track is its 1-based number among
    all the entries of type "Track", subtitles counted: a subtitle does
    consume a number. Positions are therefore strictly increasing, and
    they are 1, 2, ... without gap when the tracklist has no subtitle. *)
Theorem track_position_numbering (self : DiscogsAlbum)
    (track_list : list Track.t) :
  track_sequence self track_list →
  Forall2
    (λ it track,
       Track.position track = (it.1 + 1)%nat
       ∧ Track.title track = Entry.title it.2
       ∧ Track.artist track = _gen_artist (Entry.artists it.2))
    (filter (λ it, is_subtitle it.2 = false) (enumerated self))
    track_list
  ∧ (∀ j k a b,
       (j < k)%nat → track_list !! j = Some a → track_list !! k = Some b →
       (Track.position a < Track.position b)%nat)
  ∧ ((∀ t, t ∈ typed_tracks self → is_subtitle t = false) →
     Track.position <$> track_list = seq 1 (length track_list)).
Proof.
  intros Hall%track_sequence_spec. repeat split.
  - unfold enumerated. rewrite <- (scan_enumerated _ 0 None).
    apply Forall2_fmap_l. eapply Forall2_impl; [exact Hall|].
    intros item track (Hp & Ht & _ & Ha & _). by repeat split.
  - intros j k a b Hjk Ha Hb.
    destruct (Forall2_lookup_r _ _ _ _ _ Hall Ha) as (ia & Hia & Hma).
    destruct (Forall2_lookup_r _ _ _ _ _ Hall Hb) as (ib & Hib & Hmb).
    destruct Hma as [-> _], Hmb as [-> _].
    pose proof (scan_increasing _ _ _ _ _ _ _ Hjk Hia Hib). lia.
  - intros Hnone. rewrite (maps_to_positions _ _ _ Hall).
    rewrite scan_no_subtitle by done.
    apply Forall2_length in Hall. rewrite <- Hall.
    rewrite <- (length_fmap (λ item, (item.1.1 + 1)%nat)).
    by rewrite scan_no_subtitle, length_seq by done.
Qed.

Lemma track_position_numbering_witness :
  Forall2
    (λ it track,
       Track.position track = (it.1 + 1)%nat
       ∧ Track.title track = Entry.title it.2
       ∧ Track.artist track = _gen_artist (Entry.artists it.2))
    [ (1%nat, entry "1-1" "A" "3:00" [artist_x]);
      (2%nat, entry "2-1" "B" "3:00" [artist_x]) ]
    [ {| Track.position := 2; Track.tracknumber := 1; Track.discnumber := 1;
         Track.discsubtitle := Some "Disc One"%string;
         Track.sortartist := SortName "X"; Track.artist := ["X"%string];
         Track.title := "A" |};
      {| Track.position := 3; Track.tracknumber := 1; Track.discnumber := 2;
         Track.discsubtitle := Some "Disc One"%string;
         Track.sortartist := SortName "X"; Track.artist := ["X"%string];
         Track.title := "B" |} ].
Proof.
  exact (proj1 (track_position_numbering two_discs_subtitled _
                  (or_intror eq_refl))).
Defined.

(** C1, as stated, fails on a tracklist that opens with a disc subtitle:
    the only track emitted is the first of the remaining entries, and its
    position is 2. *)
Lemma track_position_counts_subtitles :
  filter (λ t, is_subtitle t = false) (typed_tracks one_disc_subtitled)
  = [ entry "1" "Song" "3:00" [artist_x] ]
  ∧ ∃ track,
      track_sequence one_disc_subtitled [track]
      ∧ Track.title track = "Song"%string
      ∧ Track.position track = 2%nat
      ∧ Track.position <$> [track] ≠ seq 1 1.
Proof.
  split; [reflexivity|].
  eexists. split; [right; reflexivity|]. by repeat split.
Qed.

(** C8 (amended). The title of a disc subtitle is assigned as disc subtitle
    to every track emitted after it, until a new disc subtitle appears; a
    change of disc number does not end it. Each track carries the title of
    the last subtitle before it, and none when no subtitle precedes it. *)
Theorem track_discsubtitle_carried (self : DiscogsAlbum)
    (track_list : list Track.t) (pre : list Entry.t) (t : Entry.t)
    (post : list Entry.t) :
  track_sequence self track_list →
  typed_tracks self = pre ++ t :: post →
  is_subtitle t = false →
  ∃ track,
    track_list !! length (filter (λ e, is_subtitle e = false) pre) = Some track
    ∧ Track.title track = Entry.title t
    ∧ Track.discsubtitle track = last_subtitle pre.
Proof.
  intros Hall%track_sequence_spec Hsplit Ht. rewrite Hsplit in Hall.
  pose proof (scan_prefix pre t post Ht 0 None) as Hitem.
  destruct (Forall2_lookup_l _ _ _ _ _ Hall Hitem)
    as (track & Htrack & _ & Htitle & Hsub & _).
  exists track. repeat split; [exact Htrack | exact Htitle |].
  rewrite Hsub. simpl.
  replace (match last_subtitle pre with Some title => Some title | None => None end)
    with (last_subtitle pre) by (by destruct (last_subtitle pre)).
  apply last_subtitle_attribute.
Qed.

Lemma track_discsubtitle_carried_witness :
  ∃ track,
    [ {| Track.position := 2; Track.tracknumber := 1; Track.discnumber := 1;
         Track.discsubtitle := Some "Disc One"%string;
         Track.sortartist := SortName "X"; Track.artist := ["X"%string];
         Track.title := "A" |};
      {| Track.position := 3; Track.tracknumber := 1; Track.discnumber := 2;
         Track.discsubtitle := Some "Disc One"%string;
         Track.sortartist := SortName "X"; Track.artist := ["X"%string];
         Track.title := "B" |} ] !! 1%nat = Some track
    ∧ Track.title track = "B"%string
    ∧ Track.discsubtitle track = Some "Disc One"%string.
Proof.
  exact (track_discsubtitle_carried two_discs_subtitled _
           [ entry "" "Disc One" "" [artist_x];
             entry "1-1" "A" "3:00" [artist_x] ]
           (entry "2-1" "B" "3:00" [artist_x]) []
           (or_intror eq_refl) eq_refl eq_refl).
Defined.

(** C8, as stated, fails on a two-disc release with one subtitle ahead of
    the first disc: the track of disc 2 follows a track of disc 1 and still
    carries "Disc One". *)
Lemma track_discsubtitle_crosses_discs :
  ∃ a b,
    track_sequence two_discs_subtitled [a; b]
    ∧ Track.discnumber a = 1 ∧ Track.discnumber b = 2
    ∧ Track.discsubtitle a = Some "Disc One"%string
    ∧ Track.discsubtitle b = Some "Disc One"%string
    ∧ Track.discsubtitle b ≠ None.
Proof.
  do 2 eexists. split; [right; reflexivity|]. by repeat split.
Qed.




(** C2 (amended). For every release whose tracklist has an entry of type
    "Track" that is not a disc subtitle, evaluating [tracks] on the
    instance the constructor built raises before returning, at the first
    entry of type "Track": [AttributeError] for the missing [self.artist]
    when that entry has no artist, and [NameError] for the unbound name
    [TrackContainer] when it has one. The assignment into [self.discs] is
    not reached and the instance is left as it was, so
    [tracktotal_on_disc] still raises [AttributeError] for the unbound
    [self.discs] afterwards. *)
Theorem tracks_raises (fetched : Release.t) :
  (∃ t, t ∈ typed_tracks (__init__ fetched) ∧ is_subtitle t = false) →
  ∃ first others e,
    typed_tracks (__init__ fetched) = first :: others
    ∧ tracks (__init__ fetched) = (Raise e, __init__ fetched)
    ∧ (Entry.artists first = [] → e = AttributeError "artist")
    ∧ (Entry.artists first ≠ [] → e = NameError "TrackContainer")
    ∧ ∀ discnumber,
        tracktotal_on_disc (tracks (__init__ fetched)).2 discnumber
        = Raise (AttributeError "discs").
Proof.
  intros (t & Hin & _). unfold tracks.
  destruct (typed_tracks (__init__ fetched)) as [|first others];
    [by apply elem_of_nil in Hin|].
  rewrite tracks_loop_raises. exists first, others. eexists.
  split; [reflexivity|]. split; [reflexivity|].
  repeat split; intros Hcredit; by case_decide.
Qed.

Lemma tracks_raises_witness :
  ∃ first others e,
    typed_tracks one_track = first :: others
    ∧ tracks one_track = (Raise e, one_track)
    ∧ (Entry.artists first = [] → e = AttributeError "artist")
    ∧ (Entry.artists first ≠ [] → e = NameError "TrackContainer")
    ∧ ∀ discnumber,
        tracktotal_on_disc (tracks one_track).2 discnumber
        = Raise (AttributeError "discs").
Proof.
  refine (tracks_raises (release one_track) _).
  exists (entry "1" "Song" "3:00" [artist_x]).
  split; [apply list_elem_of_here | reflexivity].
Defined.

(** C2, as stated, fails on a release with one credited track: [tracks]
    raises [NameError], not [AttributeError], and does so before it
    touches [self.discs]. *)
Lemma tracks_name_error_first :
  (∃ t, t ∈ typed_tracks one_track ∧ is_subtitle t = false)
  ∧ (tracks one_track).1 = Raise (NameError "TrackContainer")
  ∧ ∀ attr, (tracks one_track).1 ≠ Raise (AttributeError attr).
Proof.
  split.
  { exists (entry "1" "Song" "3:00" [artist_x]).
    split; [apply list_elem_of_here | reflexivity]. }
  split; [reflexivity | discriminate].
Qed.

(** C3 fails on the code. In the end-to-end scenario of the specification
    the second entry has no artist of its own; the handler reads
    [self.artist], which the class does not define, and both loops raise
    [AttributeError] instead of falling back to the release artists. *)
Theorem track_artist_fallback_raises :
  track_artist scenario (entry "1-2" "B" "" []) = Raise (AttributeError "artist")
  ∧ discs_and_tracks scenario = Raise (AttributeError "artist")
  ∧ (tracks (sample None "2" None "X" [ entry "1-2" "B" "" [] ])).1
    = Raise (AttributeError "artist").
Proof. repeat split; reflexivity. Qed.

(** * Further properties of the module *)

(** ** Suffix cleaning *)

Lemma sub_duplicate_length (s : string) :
  ∀ k, (String.length (Re.sub_duplicate k s) ≤ String.length s - k)%nat.
Proof.
  induction s as [|c r IH]; intros k; [simpl; lia|].
  destruct k as [|k]; [|cbn [Re.sub_duplicate String.length]; apply IH].
  cbn [Re.sub_duplicate].
  destruct (Re.duplicate_at (String c r)) as [rest|].
  - specialize (IH (String.length r - String.length rest)%nat). simpl. lia.
  - specialize (IH 0%nat). simpl in *. lia.
Qed.

(** X1. [clean_duplicate_handling] returns its argument unchanged exactly
    when the suffix pattern matches at no place of the argument. *)
Theorem clean_duplicate_handling_fixed (s : string) :
  clean_duplicate_handling s = s
  ↔ ∀ a b, s = a +:+ b → Re.duplicate_at b = None.
Proof.
  unfold clean_duplicate_handling. induction s as [|c r IH].
  - split; [|reflexivity]. intros _ a b Heq.
    destruct a, b; try discriminate Heq. reflexivity.
  - destruct (Re.duplicate_at (String c r)) as [rest|] eqn:Hm.
    + split.
      * intros Heq. exfalso.
        pose proof (sub_duplicate_length r (String.length r - String.length rest)).
        cbn [Re.sub_duplicate] in Heq. rewrite Hm in Heq.
        apply (f_equal String.length) in Heq. simpl in Heq. lia.
      * intros Hnone. specialize (Hnone EmptyString (String c r) eq_refl).
        congruence.
    + rewrite sub_duplicate_plain by done. split.
      * intros [= Hr] [|x a] b Heq.
        -- rewrite append_nil_l in Heq. by subst b.
        -- rewrite append_cons in Heq. injection Heq as _ ->.
           by apply (proj1 IH Hr a b).
      * intros Hnone. f_equal. apply IH. intros a b ->.
        by apply (Hnone (String c a) b).
Qed.

(** X2. Cleaning only removes characters: the result is never longer than
    the argument, and it has the same length only when it is the argument. *)
Theorem clean_duplicate_handling_shortens (s : string) :
  (String.length (clean_duplicate_handling s) ≤ String.length s)%nat
  ∧ (String.length (clean_duplicate_handling s) = String.length s →
     clean_duplicate_handling s = s).
Proof.
  unfold clean_duplicate_handling. split.
  - pose proof (sub_duplicate_length s 0). lia.
  - induction s as [|c r IH]; [reflexivity|].
    destruct (Re.duplicate_at (String c r)) as [rest|] eqn:Hm.
    + cbn [Re.sub_duplicate]. rewrite Hm.
      pose proof (sub_duplicate_length r (String.length r - String.length rest)).
      simpl. lia.
    + rewrite sub_duplicate_plain by done. simpl.
      intros [= Hlen]. f_equal. by apply IH.
Qed.

Lemma clean_duplicate_handling_shortens_witness :
  clean_duplicate_handling "Blunted Dummies" = "Blunted Dummies"%string.
Proof.
  exact (proj2 (clean_duplicate_handling_shortens "Blunted Dummies") eq_refl).
Defined.

Lemma digits_close_digits (ds rest : string) :
  all_digits ds = true →
  Re.digits_close (ds +:+ String ")" rest) = Some rest.
Proof.
  induction ds as [|d ds IH]; [reflexivity|].
  rewrite append_cons. simpl.
  destruct (Py.is_digit d); [exact IH | discriminate].
Qed.

(** A white space, an opening parenthesis, digits and a closing
    parenthesis make up one match of the pattern. *)
Lemma duplicate_at_shape (w : ascii) (ds rest : string) :
  Py.is_space w = true → ds ≠ EmptyString → all_digits ds = true →
  Re.duplicate_at (String w (String "(" (ds +:+ String ")" rest))) = Some rest.
Proof.
  intros Hw Hne Hds. destruct ds as [|d ds]; [done|].
  rewrite append_cons. simpl in Hds.
  destruct (Py.is_digit d) eqn:Hd; [|discriminate].
  cbn [Re.duplicate_at]. rewrite Hw, Hd. simpl.
  by apply digits_close_digits.
Qed.

(** X3. A suffix is removed wherever it stands, not only at the end: for a
    white space [w] and a non-empty run of digits [ds], cleaning
    [a w(ds) b] gives the cleaned [a] followed by the cleaned [b], provided
    [b] is empty or starts with a character that is neither a digit nor a
    parenthesis. *)
Theorem clean_duplicate_handling_removes (a b ds : string) (w : ascii) :
  Py.is_space w = true → ds ≠ EmptyString → all_digits ds = true →
  starts_apart b = true →
  clean_duplicate_handling
    (a +:+ String w (String "(" (ds +:+ String ")" EmptyString)) +:+ b)
  = clean_duplicate_handling a +:+ clean_duplicate_handling b.
Proof.
  intros Hw Hne Hds Hb.
  rewrite clean_duplicate_handling_app.
  - f_equal. apply clean_duplicate_handling_suffix.
    by apply duplicate_at_shape.
  - rewrite append_cons. by apply space_apart.
Qed.

Lemma clean_duplicate_handling_removes_witness :
  clean_duplicate_handling "John (12) & Paul"
  = clean_duplicate_handling "John" +:+ clean_duplicate_handling " & Paul".
Proof.
  exact (clean_duplicate_handling_removes "John" " & Paul" "12" " "
           eq_refl ltac:(discriminate) eq_refl eq_refl).
Defined.

(** ** The rewrite of [clean_name] *)

Lemma sub_duplicate_occurs (c : ascii) (s : string) :
  ∀ k, occurs c (Re.sub_duplicate k s) → occurs c s.
Proof.
  induction s as [|a r IH]; intros k; [done|].
  rewrite occurs_cons. destruct k as [|k].
  - cbn [Re.sub_duplicate]. destruct (Re.duplicate_at (String a r)).
    + intros ?%IH. by right.
    + rewrite occurs_cons. intros [->|?%IH]; [by left | by right].
  - cbn [Re.sub_duplicate]. intros ?%IH. by right.
Qed.

Lemma search_the_at (s g : string) :
  Re.the_at s = Some g → Re.search_the s = Some g.
Proof. intros Hat. destruct s; simpl in *; by rewrite ?Hat. Qed.

Lemma the_at_comma (w : ascii) :
  Py.is_space w = true →
  Re.the_at (String "," (String w "The")) = Some EmptyString.
Proof.
  destruct w as [[] [] [] [] [] [] [] []]; vm_compute; congruence.
Qed.

Lemma the_at_line (y : string) (w : ascii) :
  Py.is_space w = true → ¬ occurs "010" y →
  Re.the_at (y +:+ String "," (String w "The")) = Some y.
Proof.
  intros Hw. induction y as [|c y IH]; intros Hline.
  - rewrite append_nil_l. by apply the_at_comma.
  - rewrite occurs_cons in Hline. rewrite append_cons.
    cbn [Re.the_at]. rewrite IH by tauto.
    destruct (Ascii.eqb_spec c "010") as [->|_]; [tauto | reflexivity].
Qed.

(** X4. The rewrite rule of [clean_name]: a name without line feed that
    ends with a comma, a white space and "The" becomes "The" followed by
    the cleaned text before the comma. *)
Theorem clean_name_the (x : string) (w : ascii) :
  Py.is_space w = true → ¬ occurs "010" x →
  clean_name (x +:+ String "," (String w "The"))
  = "The " +:+ clean_duplicate_handling x.
Proof.
  intros Hw Hline. unfold clean_name.
  rewrite clean_duplicate_handling_app by reflexivity.
  replace (clean_duplicate_handling (String "," (String w "The")))
    with (String "," (String w "The")).
  - rewrite (search_the_at _ (clean_duplicate_handling x)); [reflexivity|].
    apply the_at_line; [exact Hw|].
    intros Hin. apply Hline. by eapply sub_duplicate_occurs.
  - clear Hline. destruct w as [[] [] [] [] [] [] [] []];
      try discriminate Hw; reflexivity.
Qed.

Lemma clean_name_the_witness :
  clean_name "Goldie (12), The" = "The " +:+ clean_duplicate_handling "Goldie (12)".
Proof.
  refine (clean_name_the "Goldie (12)" " " eq_refl _).
  rewrite occurs_find. vm_compute. congruence.
Defined.

Lemma the_at_tail (s g : string) :
  Re.the_at s = Some g →
  ∃ tail, s = g +:+ tail ∧ Re.comma_the_end tail = true.
Proof.
  revert g. induction s as [|a r IH]; intros g; [discriminate|].
  cbn [Re.the_at].
  assert ((if Re.comma_the_end (String a r) then Some EmptyString else None)
          = Some g →
          ∃ tail, String a r = g +:+ tail ∧ Re.comma_the_end tail = true)
    as Hstop.
  { destruct (Re.comma_the_end (String a r)) eqn:Hend; [|discriminate].
    intros [= <-]. by exists (String a r). }
  destruct (Ascii.eqb a "010"); [exact Hstop|].
  destruct (Re.the_at r) as [g'|]; [|exact Hstop].
  intros [= <-]. destruct (IH g' eq_refl) as (tail & -> & Hend).
  by exists tail.
Qed.

Lemma the_at_none (s : string) :
  Re.the_at s = None → Re.comma_the_end s = false.
Proof.
  destruct s as [|a r]; [reflexivity|]. cbn [Re.the_at].
  destruct (Re.comma_the_end (String a r)); [|reflexivity].
  destruct (Ascii.eqb a "010"); [discriminate|].
  by destruct (Re.the_at r).
Qed.

Lemma search_the_some (s g : string) :
  Re.search_the s = Some g →
  ∃ pre tail, s = pre +:+ g +:+ tail ∧ Re.comma_the_end tail = true.
Proof.
  induction s as [|a r IH].
  - simpl. discriminate.
  - cbn [Re.search_the]. destruct (Re.the_at (String a r)) as [g'|] eqn:Hat.
    + intros [= <-]. apply the_at_tail in Hat as (tail & Heq & Hend).
      by exists EmptyString, tail.
    + intros (pre & tail & -> & Hend)%IH. by exists (String a pre), tail.
Qed.

Lemma search_the_none (s : string) :
  Re.search_the s = None →
  ∀ pre tail, s = pre +:+ tail → Re.comma_the_end tail = false.
Proof.
  induction s as [|a r IH]; intros Hnone pre tail Heq.
  - destruct pre, tail; try discriminate Heq. reflexivity.
  - cbn [Re.search_the] in Hnone.
    destruct (Re.the_at (String a r)) eqn:Hat; [discriminate|].
    destruct pre as [|x pre].
    + rewrite append_nil_l in Heq. subst tail. by apply the_at_none.
    + rewrite append_cons in Heq. injection Heq as _ ->. by eapply IH.
Qed.

(** The texts that [,\sThe$] accepts. *)
Lemma comma_the_end_shape (tail : string) :
  Re.comma_the_end tail = true ↔
  ∃ w nl, Py.is_space w = true
          ∧ (nl = EmptyString ∨ nl = String "010" EmptyString)
          ∧ tail = String "," (String w ("The" +:+ nl)).
Proof.
  split.
  - destruct tail as [|c [|w r]]; try discriminate. cbn [Re.comma_the_end].
    intros [[->%Ascii.eqb_eq Hw]%andb_prop Hr]%andb_prop.
    exists w. apply orb_prop in Hr as [->%String.eqb_eq | ->%String.eqb_eq].
    + exists EmptyString. auto.
    + exists (String "010" EmptyString). auto.
  - intros (w & nl & Hw & [->| ->] & ->); cbn [Re.comma_the_end];
      rewrite Hw; reflexivity.
Qed.

(** X5. [clean_name] has one rewrite rule only. Either the cleaned name
    ends with a comma, a white space and "The", possibly before one final
    line feed, and the result is "The" followed by a part [g] of the
    cleaned name that stands right before the comma; or the cleaned name
    has no such ending and is returned as it is. *)
Theorem clean_name_cases (x : string) :
  (∃ pre g w nl,
      clean_duplicate_handling x
      = pre +:+ g +:+ String "," (String w ("The" +:+ nl))
      ∧ Py.is_space w = true
      ∧ (nl = EmptyString ∨ nl = String "010" EmptyString)
      ∧ clean_name x = "The " +:+ g)
  ∨ (clean_name x = clean_duplicate_handling x
     ∧ ∀ pre w nl,
         Py.is_space w = true →
         nl = EmptyString ∨ nl = String "010" EmptyString →
         clean_duplicate_handling x
         ≠ pre +:+ String "," (String w ("The" +:+ nl))).
Proof.
  unfold clean_name.
  destruct (Re.search_the (clean_duplicate_handling x)) as [g|] eqn:Hs.
  - left. apply search_the_some in Hs as (pre & tail & Heq & Hend).
    apply comma_the_end_shape in Hend as (w & nl & Hw & Hnl & ->).
    by exists pre, g, w, nl.
  - right. split; [reflexivity|]. intros pre w nl Hw Hnl Heq.
    pose proof (search_the_none _ Hs pre _ Heq) as Hend.
    assert (Re.comma_the_end (String "," (String w ("The" +:+ nl))) = true)
      as Hyes by (apply comma_the_end_shape; by exists w, nl).
    congruence.
Qed.

(** ** Numbering *)

Lemma disc_and_track_no_at (c : ascii) (disc track : string) :
  (c = "-"%char ∨ (c = "."%char ∧ ¬ occurs "-" (disc +:+ String c track))) →
  ¬ occurs c disc →
  disc_and_track_no (disc +:+ String c track)
  = {| Pos.tracknumber := track; Pos.discnumber := disc |}.
Proof.
  intros Hc Hfirst.
  assert (Py.find c (disc +:+ String c track) = Z.of_nat (String.length disc))
    as Hfind.
  { destruct (find_spec c (disc +:+ String c track))
      as [[_ Hno]|(a & b & Heq & Hno & Hf)].
    - destruct Hno. by exists disc, track.
    - rewrite Hf. f_equal. clear Hf Hc.
      revert a Heq Hno. induction disc as [|x disc IH]; intros a Heq Hno.
      + destruct a as [|y a]; [reflexivity|].
        rewrite append_nil_l, append_cons in Heq. injection Heq as <- _.
        destruct Hno. apply occurs_cons. by left.
      + destruct a as [|y a].
        * rewrite append_nil_l, append_cons in Heq. injection Heq as -> _.
          destruct Hfirst. apply occurs_cons. by left.
        * rewrite !append_cons in Heq. injection Heq as -> Heq. simpl.
          f_equal. apply IH; [|exact Heq|].
          -- intros Hin. apply Hfirst, occurs_cons. by right.
          -- intros Hin. apply Hno, occurs_cons. by right. }
  unfold disc_and_track_no. cbv zeta.
  assert ((if Py.find "-" (disc +:+ String c track) =? -1
           then Py.find "." (disc +:+ String c track)
           else Py.find "-" (disc +:+ String c track))
          = Z.of_nat (String.length disc)) as ->.
  { destruct Hc as [->|[-> Hnodash]].
    - rewrite Hfind.
      by destruct (Z.eqb_spec (Z.of_nat (String.length disc)) (-1)); [lia|].
    - destruct (Z.eqb_spec (Py.find "-" (disc +:+ String "." track)) (-1))
        as [_|Hdash]; [exact Hfind|].
      destruct Hnodash. by apply occurs_find. }
  destruct (Z.eqb_spec (Z.of_nat (String.length disc)) (-1)); [lia|].
  by rewrite slice_from_after, slice_to_append.
Qed.

(** X6. On a non-empty token the parser drops exactly one character and
    keeps the rest in place: the token is the disc-number substring, the
    dropped character and the track-number substring, in this order. The
    dropped character is the first "-" when the token has one, else the
    first "." when it has one, and else the first character of the token,
    the disc-number substring being empty. *)
Theorem disc_and_track_no_drops_one (position : string) :
  position ≠ EmptyString →
  ∃ c,
    position
    = Pos.discnumber (disc_and_track_no position)
      +:+ String c (Pos.tracknumber (disc_and_track_no position))
    ∧ (occurs "-" position →
       c = "-"%char ∧ ¬ occurs "-" (Pos.discnumber (disc_and_track_no position)))
    ∧ (¬ occurs "-" position → occurs "." position →
       c = "."%char ∧ ¬ occurs "." (Pos.discnumber (disc_and_track_no position)))
    ∧ (¬ occurs "-" position → ¬ occurs "." position →
       Pos.discnumber (disc_and_track_no position) = EmptyString)
    ∧ (String.length (Pos.discnumber (disc_and_track_no position))
       + String.length (Pos.tracknumber (disc_and_track_no position)) + 1
       = String.length position)%nat.
Proof.
  intros Hne.
  destruct (find_spec "-" position)
    as [[_ Hnodash]|(disc & track & -> & Hfirst & _)].
  - destruct (find_spec "." position)
      as [[_ Hnodot]|(disc & track & -> & Hfirst & _)].
    + rewrite disc_and_track_no_plain by done.
      destruct position as [|c r]; [done|].
      cbn [Pos.discnumber Pos.tracknumber].
      assert (Py.slice_from (String c r) 1 = r) as ->.
      { change (String c r) with (String c EmptyString +:+ r) at 1.
        change 1 with (Z.of_nat (String.length (String c EmptyString))).
        apply slice_from_append. }
      exists c. split; [reflexivity|].
      split; [intros Hdash; by destruct Hnodash|].
      split; [intros _ Hdot; by destruct Hnodot|].
      split; [reflexivity | simpl; lia].
    + rewrite disc_and_track_no_at by tauto.
      cbn [Pos.discnumber Pos.tracknumber].
      exists "."%char. split; [reflexivity|].
      split; [intros Hdash; by destruct Hnodash|].
      split; [done|].
      split; [intros _ Hnone; destruct Hnone; by exists disc, track|].
      rewrite length_append. simpl. lia.
  - rewrite disc_and_track_no_at by tauto.
    cbn [Pos.discnumber Pos.tracknumber].
    exists "-"%char. split; [reflexivity|].
    split; [done|].
    split; [intros Hnone; destruct Hnone; by exists disc, track|].
    split; [intros Hnone; destruct Hnone; by exists disc, track|].
    rewrite length_append. simpl. lia.
Qed.

Lemma disc_and_track_no_drops_one_witness :
  ∃ c,
    "A1"%string
    = Pos.discnumber (disc_and_track_no "A1")
      +:+ String c (Pos.tracknumber (disc_and_track_no "A1"))
    ∧ (occurs "-" "A1" →
       c = "-"%char ∧ ¬ occurs "-" (Pos.discnumber (disc_and_track_no "A1")))
    ∧ (¬ occurs "-" "A1" → occurs "." "A1" →
       c = "."%char ∧ ¬ occurs "." (Pos.discnumber (disc_and_track_no "A1")))
    ∧ (¬ occurs "-" "A1" → ¬ occurs "." "A1" →
       Pos.discnumber (disc_and_track_no "A1") = EmptyString)
    ∧ (String.length (Pos.discnumber (disc_and_track_no "A1"))
       + String.length (Pos.tracknumber (disc_and_track_no "A1")) + 1
       = String.length "A1")%nat.
Proof.
  exact (disc_and_track_no_drops_one "A1" ltac:(discriminate)).
Defined.

Lemma int_raises_ValueError (s : string) (e : exn) :
  Py.int s = Raise e → e = ValueError.
Proof.
  unfold Py.int. cbv zeta.
  match goal with
  | |- match ?parsed with Some _ => _ | None => _ end = _ → _ =>
      destruct parsed; [discriminate | by intros [= <-]]
  end.
Qed.

(** X7. In a release of more than one disc an entry whose position holds
    neither "-" nor "." cannot be numbered: the disc-number substring is
    empty and [int] raises [ValueError]. *)
Theorem numbering_needs_delimiter (self : DiscogsAlbum) (t : Entry.t) (total : Z) :
  disctotal self = Ok total → 1 < total →
  ¬ occurs "-" (Entry.position t) → ¬ occurs "." (Entry.position t) →
  numbering self t = Raise ValueError.
Proof.
  intros Htotal Hmulti Hdash Hdot. unfold numbering. rewrite Htotal.
  cbn [mbind result_bind].
  destruct (Z.ltb_spec 1 total) as [_|]; [|lia].
  rewrite disc_and_track_no_plain by done.
  cbn [Pos.tracknumber Pos.discnumber].
  destruct (Py.int (Py.slice_from (Entry.position t) 1)) as [n|e] eqn:Hint.
  - reflexivity.
  - cbn [mbind result_bind]. f_equal. by eapply int_raises_ValueError.
Qed.

Lemma numbering_needs_delimiter_witness :
  numbering two_discs_subtitled (entry "A1" "Side one" "3:00" [artist_x])
  = Raise ValueError.
Proof.
  refine (numbering_needs_delimiter two_discs_subtitled
            (entry "A1" "Side one" "3:00" [artist_x]) 2 eq_refl eq_refl _ _);
    rewrite occurs_find; vm_compute; congruence.
Defined.

(** ** When the track loop returns *)

Lemma discs_and_tracks_loop_returns (self : DiscogsAlbum) (ts : list Entry.t) :
  (∀ t, t ∈ ts → Entry.artists t ≠ []) →
  (∀ t, t ∈ ts → is_subtitle t = false → ∃ n, numbering self t = Ok n) →
  ∀ i pending track_list,
    ∃ result, discs_and_tracks_loop self i ts pending track_list = Ok result.
Proof.
  induction ts as [|t ts IH]; intros Hcredit Hnumber i pending track_list.
  - by eexists.
  - cbn [discs_and_tracks_loop].
    destruct (track_artist_outcomes self t)
      as [(first & _ & ->)|[Hnone _]];
      [|by destruct (Hcredit t (list_elem_of_here _ _))].
    cbn [mbind result_bind].
    assert (∀ i pending track_list,
              ∃ result, discs_and_tracks_loop self i ts pending track_list = Ok result)
      as Hrest.
    { apply IH; intros t' Hin; [apply Hcredit | apply Hnumber];
        by apply list_elem_of_further. }
    destruct (is_subtitle t) eqn:Hsub; [apply Hrest|].
    destruct (Hnumber t (list_elem_of_here _ _) Hsub) as ([tn dn] & ->).
    cbn [mbind result_bind]. apply Hrest.
Qed.

Lemma discs_and_tracks_loop_requires (self : DiscogsAlbum) (ts : list Entry.t) :
  ∀ i pending track_list result,
    discs_and_tracks_loop self i ts pending track_list = Ok result →
    ∀ t, t ∈ ts →
         Entry.artists t ≠ []
         ∧ (is_subtitle t = false → ∃ n, numbering self t = Ok n).
Proof.
  induction ts as [|t ts IH]; intros i pending track_list result Hret t' Hin.
  - by apply elem_of_nil in Hin.
  - cbn [discs_and_tracks_loop] in Hret.
    destruct (track_artist_outcomes self t)
      as [(first & Hfirst & Hta)|[_ Hta]]; rewrite Hta in Hret;
      [|discriminate].
    cbn [mbind result_bind] in Hret.
    destruct (is_subtitle t) eqn:Hsub.
    + apply elem_of_cons in Hin as [->|Hin]; [|by eapply IH].
      split; [|congruence]. intros Hnone. by rewrite Hnone in Hfirst.
    + destruct (numbering self t) as [[tn dn]|e] eqn:Hn; [|discriminate].
      cbn [mbind result_bind] in Hret.
      apply elem_of_cons in Hin as [->|Hin]; [|by eapply IH].
      split; [|by eexists]. intros Hnone. by rewrite Hnone in Hfirst.
Qed.

(** X8. [discs_and_tracks] is all or nothing. It returns a track list
    exactly when every entry of type "Track", disc subtitles included, has
    at least one artist and every such entry that is not a disc subtitle
    can be numbered; one entry that fails either test makes the whole call
    raise. *)
Theorem discs_and_tracks_returns (self : DiscogsAlbum) :
  (∃ track_list, discs_and_tracks self = Ok track_list)
  ↔ ∀ t, t ∈ typed_tracks self →
         Entry.artists t ≠ []
         ∧ (is_subtitle t = false → ∃ n, numbering self t = Ok n).
Proof.
  unfold discs_and_tracks. split.
  - intros [track_list Hret]. by eapply discs_and_tracks_loop_requires.
  - intros Hall. apply discs_and_tracks_loop_returns; intros t Hin; by apply Hall.
Qed.

Lemma scan_real (ts : list Entry.t) :
  ∀ i pending item, item ∈ scan i pending ts → is_subtitle item.2 = false.
Proof.
  induction ts as [|t ts IH]; intros i pending item; simpl.
  - by intros ?%elem_of_nil.
  - destruct (is_subtitle t) eqn:Hsub; [apply IH|].
    intros [->|Hin]%elem_of_cons; [exact Hsub | by eapply IH].
Qed.

(** X9. Every emitted track comes from an entry of type "Track" that is
    not a disc subtitle and has an artist: its sort artist is [clean_name]
    of the raw name of the entry's first artist, never the method object
    of the handler, and its artist is the list of the raw names of the
    entry's artists, duplicate suffixes included. *)
Theorem track_artist_of_entry (self : DiscogsAlbum)
    (track_list : list Track.t) (track : Track.t) :
  track_sequence self track_list →
  track ∈ track_list →
  ∃ t first,
    t ∈ typed_tracks self ∧ is_subtitle t = false
    ∧ head (Entry.artists t) = Some first
    ∧ Track.sortartist track = SortName (clean_name (Artist.name first))
    ∧ Track.artist track = Artist.name <$> Entry.artists t
    ∧ Track.title track = Entry.title t.
Proof.
  intros Hall%track_sequence_spec (j & Hj)%list_elem_of_lookup.
  destruct (Forall2_lookup_r _ _ _ _ _ Hall Hj)
    as (item & Hitem & _ & Htitle & _ & Hartist & (first & Hfirst & Hsort) & _).
  apply list_elem_of_lookup_2 in Hitem.
  exists item.2, first. repeat split; try done.
  - by eapply scan_entries.
  - by eapply scan_real.
Qed.

Lemma track_artist_of_entry_witness :
  ∃ t first,
    t ∈ typed_tracks two_discs_subtitled ∧ is_subtitle t = false
    ∧ head (Entry.artists t) = Some first
    ∧ SortName "X" = SortName (clean_name (Artist.name first))
    ∧ ["X"%string] = Artist.name <$> Entry.artists t
    ∧ "B"%string = Entry.title t.
Proof.
  refine (track_artist_of_entry two_discs_subtitled _
            {| Track.position := 3; Track.tracknumber := 1; Track.discnumber := 2;
               Track.discsubtitle := Some "Disc One"%string;
               Track.sortartist := SortName "X"; Track.artist := ["X"%string];
               Track.title := "B" |}
            (or_intror eq_refl) _).
  apply list_elem_of_further, list_elem_of_here.
Defined.

(** X10. [tracks] never changes the instance, whatever [self.discs] holds:
    no call stores a track total. It returns only for a release without
    entries of type "Track", and then returns the empty list. *)
Theorem tracks_leaves_instance (self : DiscogsAlbum) :
  (tracks self).2 = self
  ∧ ∀ track_list,
      (tracks self).1 = Ok track_list
      ↔ typed_tracks self = [] ∧ track_list = [].
Proof.
  unfold tracks. destruct (typed_tracks self) as [|t ts].
  - split; [reflexivity|]. intros track_list. simpl. split.
    + by intros [= <-].
    + by intros [_ ->].
  - rewrite tracks_loop_raises. split; [reflexivity|].
    intros track_list. simpl. split; [discriminate | by intros [? _]].
Qed.

(** ** Release-level facts, continued *)

Lemma match_year_prefix (s g : string) :
  Re.match_year s = Some g →
  ∃ rest, s = g +:+ rest ∧ String.length g = 4%nat ∧ all_digits g = true.
Proof.
  destruct s as [|a [|b [|c [|d rest]]]]; try discriminate.
  cbn [Re.match_year].
  destruct (Py.is_digit a) eqn:Ha, (Py.is_digit b) eqn:Hb,
    (Py.is_digit c) eqn:Hc, (Py.is_digit d) eqn:Hd; try discriminate.
  intros [= <-]. exists rest. simpl. by rewrite Ha, Hb, Hc, Hd.
Qed.

(** X11. Whatever [year] returns is a run of exactly four decimal digits,
    and it is the start of the text of the catalog's year field. *)
Theorem year_four_digits (self : DiscogsAlbum) (y : string) :
  year self = Ok y →
  ∃ field rest,
    Data.year (Release.data (release self)) = Some field
    ∧ Py.str field = y +:+ rest
    ∧ String.length y = 4%nat ∧ all_digits y = true.
Proof.
  rewrite year_outcomes.
  destruct (Data.year _) as [field|]; [|discriminate].
  destruct (Re.match_year (Py.str field)) as [g|] eqn:Hm; [|discriminate].
  intros [= <-]. apply match_year_prefix in Hm as (rest & Heq & Hlen & Hds).
  by exists field, rest.
Qed.

Lemma year_four_digits_witness :
  ∃ field rest,
    Data.year (Release.data (release blunted_dummies)) = Some field
    ∧ Py.str field = "1993" +:+ rest
    ∧ String.length "1993" = 4%nat ∧ all_digits "1993" = true.
Proof. exact (year_four_digits blunted_dummies "1993" eq_refl). Defined.

(** X13. [is_compilation] raises exactly when the payload credits no
    artist, and then raises [IndexError], whatever the formats say. *)
Theorem is_compilation_uncredited (self : DiscogsAlbum) (e : exn) :
  is_compilation self = Raise e
  ↔ Data.artists (Release.data (release self)) = [] ∧ e = IndexError.
Proof.
  unfold is_compilation.
  destruct (Data.artists _) as [|first others]; cbn [Py.item0 mbind result_bind].
  - split; [by intros [= <-] | by intros [_ ->]].
  - split; [|by intros [? _]].
    by destruct (String.eqb _ _).
Qed.

(** ** The album mapping *)

Lemma comprehension_uris (l : list Image.t) (uris : list string) :
  comprehension (λ x, Py.getitem "uri" (Image.uri x)) l = Ok uris
  ↔ Image.uri <$> l = Some <$> uris.
Proof.
  revert uris. induction l as [|x l IH]; intros uris.
  - simpl. split.
    + by intros [= <-].
    + by intros ->%symmetry%fmap_nil_inv.
  - cbn [comprehension]. rewrite fmap_cons.
    destruct (Image.uri x) as [u|]; cbn [Py.getitem mbind result_bind].
    + destruct (comprehension _ l) as [us|e]; cbn [mbind result_bind].
      * split.
        -- intros [= <-]. rewrite fmap_cons. f_equal. by apply IH.
        -- destruct uris as [|u' uris]; [discriminate|].
           rewrite fmap_cons. intros [= -> Hrest]. f_equal.
           apply IH in Hrest. by injection Hrest as ->.
      * split; [discriminate|].
        destruct uris as [|u' uris]; [discriminate|].
        rewrite fmap_cons. intros [= -> Hrest]. by apply IH in Hrest.
    + split; [discriminate|]. by destruct uris.
Qed.

Lemma comprehension_uris_raises (l : list Image.t) (e : exn) :
  comprehension (λ x, Py.getitem "uri" (Image.uri x)) l = Raise e →
  e = KeyError "uri".
Proof.
  induction l as [|x l IH]; [discriminate|]. cbn [comprehension].
  destruct (Image.uri x) as [u|]; cbn [Py.getitem mbind result_bind].
  - destruct (comprehension _ l) as [us|e']; cbn [mbind result_bind];
      [discriminate|]. intros [= <-]. by apply IH.
  - by intros [= <-].
Qed.

(** [images] returns the addresses when every image has one, and [None]
    in every other case. *)
Lemma images_outcome (details : Details.t) :
  images details
  = Ok (match Details.images details with
        | Some l =>
            match comprehension (λ x, Py.getitem "uri" (Image.uri x)) l with
            | Ok uris => Some uris
            | Raise _ => None
            end
        | None => None
        end).
Proof.
  unfold images. destruct (Details.images details) as [l|]; [|reflexivity].
  cbn [Py.getitem mbind result_bind].
  destruct (comprehension _ l) as [uris|e] eqn:Hc; [reflexivity|].
  by rewrite (comprehension_uris_raises _ _ Hc).
Qed.

(** X14. [images] never raises. It returns the list of the addresses, in
    order, exactly when the payload has the key "images" and every image
    has the key "uri"; when the key is missing, or when a single image
    lacks its address, it returns [None]. *)
Theorem images_never_raises (details : Details.t) :
  ∃ r,
    images details = Ok r
    ∧ ∀ uris,
        r = Some uris
        ↔ ∃ l, Details.images details = Some l
               ∧ Image.uri <$> l = Some <$> uris.
Proof.
  rewrite images_outcome. eexists. split; [reflexivity|]. intros uris.
  destruct (Details.images details) as [l|].
  - destruct (comprehension _ l) as [us|e] eqn:Hc.
    + split.
      * intros [= <-]. exists l. split; [reflexivity|].
        by apply comprehension_uris.
      * intros (? & [= <-] & Huris%comprehension_uris). congruence.
    + split; [discriminate|].
      intros (? & [= <-] & Huris%comprehension_uris). congruence.
  - split; [discriminate|]. by intros (? & ? & _).
Qed.

Example images_examples :
  images blunted_dummies_details = Ok (Some ["cover.jpg"%string])
  ∧ images
      {| Details.id := Py.Int 1; Details.title := "T"; Details.labels := None;
         Details.images :=
           Some [ {| Image.uri := Some "a.jpg"%string |}; {| Image.uri := None |} ];
         Details.master_id := None; Details.genres := None;
         Details.styles := None; Details.country := None;
         Details.notes := None |}
    = Ok None.
Proof. split; reflexivity. Qed.

(** What [map] needs, and the album it then returns. *)
Lemma map_outcome (self : DiscogsAlbum) (details : Details.t)
    (album : gmap string value) :
  map self details = Ok album
  ↔ ∃ sort pairs pictures y genres styles country total compilation track_list,
      sort_artist (Release.artists (release self)) = Ok sort
      ∧ labels_and_numbers details = Ok pairs
      ∧ images details = Ok pictures
      ∧ year self = Ok y
      ∧ Details.genres details = Some genres
      ∧ Details.styles details = Some styles
      ∧ Details.country details = Some country
      ∧ disctotal self = Ok total
      ∧ is_compilation self = Ok compilation
      ∧ discs_and_tracks self = Ok track_list
      ∧ album
        = <["is_compilation"%string := Flag compilation]>
            (<["disctotal"%string := Number total]>
               (match Details.notes details with
                | Some notes => insert "notes"%string (Text notes)
                | None => id
                end
                  (<["year"%string := Text country]>
                     (<["styles"%string := Texts styles]>
                        (<["genres"%string := Texts genres]>
                           (<["year"%string := Text y]>
                              (<["images"%string :=
                                   match pictures with
                                   | Some uris => Texts uris
                                   | None => NoValue
                                   end]>
                                 (<["labels"%string := Texts (pairs.*1)]>
                                    (<["catnumbers"%string := Texts (pairs.*2)]>
                                       (<["url"%string := Text (url details)]>
                                          (<["sort_artist"%string := Text sort]>
                                             (Album (Details.id details)
                                                (Details.title details)
                                                (artists self))))))))))))).
Proof.
  unfold map. cbv zeta.
  destruct (sort_artist _) as [sort|]; cbn [mbind result_bind];
    [|split; [discriminate | by intros (?&?&?&?&?&?&?&?&?&?&?&_)]].
  destruct (labels_and_numbers details) as [pairs|]; cbn [mbind result_bind];
    [|split; [discriminate | by intros (?&?&?&?&?&?&?&?&?&?&_&?&_)]].
  destruct (images details) as [pictures|]; cbn [mbind result_bind];
    [|split; [discriminate | by intros (?&?&?&?&?&?&?&?&?&?&_&_&?&_)]].
  destruct (year self) as [y|]; cbn [mbind result_bind];
    [|split; [discriminate | by intros (?&?&?&?&?&?&?&?&?&?&_&_&_&?&_)]].
  destruct (Details.genres details) as [genres|]; cbn [Py.getitem mbind result_bind];
    [|split; [discriminate | by intros (?&?&?&?&?&?&?&?&?&?&_&_&_&_&?&_)]].
  destruct (Details.styles details) as [styles|]; cbn [Py.getitem mbind result_bind];
    [|split; [discriminate | by intros (?&?&?&?&?&?&?&?&?&?&_&_&_&_&_&?&_)]].
  destruct (Details.country details) as [country|]; cbn [Py.getitem mbind result_bind];
    [|split; [discriminate | by intros (?&?&?&?&?&?&?&?&?&?&_&_&_&_&_&_&?&_)]].
  destruct (disctotal self) as [total|]; cbn [mbind result_bind];
    [|split; [discriminate | by intros (?&?&?&?&?&?&?&?&?&?&_&_&_&_&_&_&_&?&_)]].
  destruct (is_compilation self) as [compilation|]; cbn [mbind result_bind];
    [|split; [discriminate | by intros (?&?&?&?&?&?&?&?&?&?&_&_&_&_&_&_&_&_&?&_)]].
  destruct (discs_and_tracks self) as [track_list|]; cbn [mbind result_bind];
    [|split; [discriminate | by intros (?&?&?&?&?&?&?&?&?&?&_&_&_&_&_&_&_&_&_&?&_)]].
  split.
  - intros [= <-].
    exists sort, pairs, pictures, y, genres, styles, country, total,
      compilation, track_list.
    repeat (split; [reflexivity|]). by destruct (Details.notes details).
  - intros (?&?&?&?&?&?&?&?&?&?&
            [= <-]&[= <-]&[= <-]&[= <-]&[= <-]&[= <-]&[= <-]&[= <-]&[= <-]&_& ->).
    by destruct (Details.notes details).
Qed.

#[local] Ltac album_lookup :=
  repeat first
    [ rewrite lookup_insert_eq
    | rewrite lookup_insert_ne by discriminate ];
  try reflexivity.

(** X15. The album [map] returns never carries the release year: its
    attribute [year] holds the country of the payload. The year is
    computed all the same, so [map] returns only if [year] does. *)
Theorem map_year_is_country (self : DiscogsAlbum) (details : Details.t)
    (album : gmap string value) :
  map self details = Ok album →
  ∃ country y,
    Details.country details = Some country
    ∧ year self = Ok y
    ∧ album !! "year"%string = Some (Text country).
Proof.
  intros (sort & pairs & pictures & y & genres & styles & country & total
          & compilation & track_list
          & _ & _ & _ & Hy & _ & _ & Hc & _ & _ & _ & ->)%map_outcome.
  exists country, y. repeat split; [exact Hc | exact Hy |].
  destruct (Details.notes details); album_lookup.
Qed.

Lemma map_year_is_country_witness :
  ∃ country y,
    Details.country blunted_dummies_details = Some country
    ∧ year blunted_dummies = Ok y
    ∧ default ∅ (match map blunted_dummies blunted_dummies_details with
                 | Ok album => Some album
                 | Raise _ => None
                 end) !! "year"%string = Some (Text country).
Proof.
  exact (map_year_is_country blunted_dummies blunted_dummies_details _ eq_refl).
Defined.

(** X16. In the album [map] returns, [labels] and [catnumbers] are
    parallel lists with one element for each label of the payload, in
    order: the label name with its duplicate suffixes removed, without the
    rewrite of [clean_name], and the catalog number as it is. *)
Theorem map_labels_parallel (self : DiscogsAlbum) (details : Details.t)
    (album : gmap string value) :
  map self details = Ok album →
  ∃ labels,
    Details.labels details = Some labels
    ∧ album !! "labels"%string
      = Some (Texts ((λ label, clean_duplicate_handling (Label.name label))
                       <$> labels))
    ∧ album !! "catnumbers"%string = Some (Texts (Label.catno <$> labels)).
Proof.
  intros (sort & pairs & pictures & y & genres & styles & country & total
          & compilation & track_list
          & _ & Hl & _ & _ & _ & _ & _ & _ & _ & _ & ->)%map_outcome.
  unfold labels_and_numbers in Hl.
  destruct (Details.labels details) as [labels|]; [|discriminate].
  injection Hl as <-. exists labels. split; [reflexivity|].
  rewrite <- !list_fmap_compose.
  split; destruct (Details.notes details); album_lookup.
Qed.

Lemma map_labels_parallel_witness :
  ∃ labels,
    Details.labels blunted_dummies_details = Some labels
    ∧ default ∅ (match map blunted_dummies blunted_dummies_details with
                 | Ok album => Some album
                 | Raise _ => None
                 end) !! "labels"%string
      = Some (Texts ((λ label, clean_duplicate_handling (Label.name label))
                       <$> labels))
    ∧ default ∅ (match map blunted_dummies blunted_dummies_details with
                 | Ok album => Some album
                 | Raise _ => None
                 end) !! "catnumbers"%string
      = Some (Texts (Label.catno <$> labels)).
Proof.
  exact (map_labels_parallel blunted_dummies blunted_dummies_details _ eq_refl).
Defined.

Lemma item0_returns {A : Type} (l : list A) :
  (∃ a, Py.item0 l = Ok a) ↔ l ≠ [].
Proof.
  destruct l as [|a l]; simpl.
  - split; [by intros [? ?] | done].
  - split; [done | by eexists].
Qed.

(** X17. [map] is all or nothing, and this is all it needs: a first
    release artist, the keys "labels", "genres", "styles" and "country",
    and a result from each of [year], [disctotal], [is_compilation] (a
    first artist in the payload) and [discs_and_tracks]. The images and
    the notes never stand in its way. *)
Theorem map_returns (self : DiscogsAlbum) (details : Details.t) :
  (∃ album, map self details = Ok album)
  ↔ Release.artists (release self) ≠ []
    ∧ is_Some (Details.labels details)
    ∧ (∃ y, year self = Ok y)
    ∧ is_Some (Details.genres details)
    ∧ is_Some (Details.styles details)
    ∧ is_Some (Details.country details)
    ∧ (∃ total, disctotal self = Ok total)
    ∧ Data.artists (Release.data (release self)) ≠ []
    ∧ (∃ track_list, discs_and_tracks self = Ok track_list).
Proof.
  split.
  - intros (album
            & (sort & pairs & pictures & y & genres & styles & country & total
               & compilation & track_list
               & Hs & Hl & _ & Hy & Hg & Hst & Hc & Ht & Hi & Hd & _)%map_outcome).
    repeat split; eauto.
    + unfold sort_artist in Hs. intros Hnone. by rewrite Hnone in Hs.
    + unfold labels_and_numbers in Hl.
      by destruct (Details.labels details).
    + unfold is_compilation in Hi. intros Hnone. by rewrite Hnone in Hi.
  - intros (Ha & [labels Hl] & [y Hy] & [genres Hg] & [styles Hst]
            & [country Hc] & [total Ht] & Hda & [track_list Hd]).
    apply item0_returns in Ha as [first Ha].
    apply item0_returns in Hda as [credited Hda].
    assert (∃ compilation, is_compilation self = Ok compilation) as [compilation Hi].
    { unfold is_compilation. rewrite Hda. cbn [mbind result_bind].
      destruct (String.eqb _ _); by eexists. }
    eexists. apply map_outcome.
    do 10 eexists. split.
    { unfold sort_artist. rewrite Ha. reflexivity. }
    split. { unfold labels_and_numbers. rewrite Hl. reflexivity. }
    split. { apply images_outcome. }
    split; [exact Hy|]. split; [exact Hg|]. split; [exact Hst|].
    split; [exact Hc|]. split; [exact Ht|].
    split; [exact Hi|]. split; [exact Hd | reflexivity].
Qed.

(** ** How the track loop fails and what it numbers *)

Lemma numbering_raises_cases (self : DiscogsAlbum) (t : Entry.t) (e : exn) :
  numbering self t = Raise e →
  (e = IndexError ∧ Data.formats (Release.data (release self)) = [])
  ∨ e = ValueError.
Proof.
  unfold numbering, disctotal.
  destruct (Data.formats _) as [|format others]; cbn [Py.item0 mbind result_bind].
  - intros [= <-]. by left.
  - intros Hn. right. revert Hn.
    destruct (Py.int (Format.qty format)) as [total|e'] eqn:Hq;
      cbn [mbind result_bind];
      [|intros [= <-]; by eapply int_raises_ValueError].
    destruct (1 <? total).
    + destruct (Py.int (Pos.tracknumber _)) as [tn|e'] eqn:Htn;
        cbn [mbind result_bind];
        [|intros [= <-]; by eapply int_raises_ValueError].
      destruct (Py.int (Pos.discnumber _)) as [dn|e'] eqn:Hdn;
        cbn [mbind result_bind]; [discriminate|].
      intros [= <-]. by eapply int_raises_ValueError.
    + destruct (Py.int (Entry.position t)) as [tn|e'] eqn:Htn;
        cbn [mbind result_bind]; [discriminate|].
      intros [= <-]. by eapply int_raises_ValueError.
Qed.

(** The loop passes over entries that have an artist and can be numbered. *)
Lemma discs_and_tracks_loop_prefix (self : DiscogsAlbum)
    (pre rest : list Entry.t) :
  (∀ u, u ∈ pre →
        Entry.artists u ≠ []
        ∧ (is_subtitle u = false → ∃ n, numbering self u = Ok n)) →
  ∀ i pending track_list,
    ∃ i' pending' track_list',
      discs_and_tracks_loop self i (pre ++ rest) pending track_list
      = discs_and_tracks_loop self i' rest pending' track_list'.
Proof.
  induction pre as [|u pre IH]; intros Hpass i pending track_list.
  - by exists i, pending, track_list.
  - assert (∀ i pending track_list,
              ∃ i' pending' track_list',
                discs_and_tracks_loop self i (pre ++ rest) pending track_list
                = discs_and_tracks_loop self i' rest pending' track_list')
      as Hrest.
    { apply IH. intros v Hin. apply Hpass. by apply list_elem_of_further. }
    destruct (Hpass u (list_elem_of_here _ _)) as [Hcredit Hnumber].
    cbn [app discs_and_tracks_loop].
    destruct (track_artist_outcomes self u) as [(first & _ & ->)|[Hnone _]];
      [|done].
    cbn [mbind result_bind].
    destruct (is_subtitle u); [apply Hrest|].
    destruct (Hnumber eq_refl) as ([tn dn] & ->).
    cbn [mbind result_bind]. apply Hrest.
Qed.

(** X19. The first entry that fails decides how [discs_and_tracks] fails.
    When every entry of type "Track" before [t] has an artist and can be
    numbered, an entry [t] without artist makes the call raise
    [AttributeError] for the missing [self.artist], and an entry [t] with
    an artist that is not a disc subtitle and cannot be numbered makes the
    call raise what the numbering raised: [IndexError], and then the
    release has no format, or [ValueError]. *)
Theorem discs_and_tracks_first_failure (self : DiscogsAlbum)
    (pre : list Entry.t) (t : Entry.t) (post : list Entry.t) :
  typed_tracks self = pre ++ t :: post →
  (∀ u, u ∈ pre →
        Entry.artists u ≠ []
        ∧ (is_subtitle u = false → ∃ n, numbering self u = Ok n)) →
  (Entry.artists t = [] →
   discs_and_tracks self = Raise (AttributeError "artist"))
  ∧ (∀ e,
       Entry.artists t ≠ [] → is_subtitle t = false →
       numbering self t = Raise e →
       discs_and_tracks self = Raise e
       ∧ ((e = IndexError ∧ Data.formats (Release.data (release self)) = [])
          ∨ e = ValueError)).
Proof.
  intros Hsplit Hpass. unfold discs_and_tracks. rewrite Hsplit.
  destruct (discs_and_tracks_loop_prefix self pre (t :: post) Hpass 0 None [])
    as (i & pending & track_list & ->).
  cbn [discs_and_tracks_loop]. split.
  - intros Hnone. by rewrite track_artist_uncredited.
  - intros e Hcredit Hsub Hn.
    destruct (track_artist_outcomes self t) as [(first & _ & ->)|[Hnone _]];
      [|done].
    cbn [mbind result_bind]. rewrite Hsub, Hn.
    split; [reflexivity | by eapply numbering_raises_cases].
Qed.

Lemma discs_and_tracks_first_failure_witness :
  discs_and_tracks scenario = Raise (AttributeError "artist").
Proof.
  refine (proj1 (discs_and_tracks_first_failure scenario
                   [ entry "1-1" "A" EmptyString [artist_x] ]
                   (entry "1-2" "B" EmptyString [])
                   [ entry "2-1" "C" EmptyString [] ] eq_refl _) eq_refl).
  intros u ->%list_elem_of_singleton.
  split; [discriminate | intros _; by eexists].
Defined.

(** X20. The emitted tracks are, in order, those of the entries of type
    "Track" that are not disc subtitles, and the numbers of each track are
    read off the position of its own entry. With a disc total of at most 1
    the track number is the integer value of the whole position and the
    disc number is 1. With a larger disc total the track number is the
    integer after the delimiter and the disc number the integer before
    it. *)
Theorem track_numbers_of_entry (self : DiscogsAlbum)
    (track_list : list Track.t) :
  track_sequence self track_list →
  Forall2
    (λ t track,
       Track.title track = Entry.title t
       ∧ ∃ total,
           disctotal self = Ok total
           ∧ (total ≤ 1 →
              Py.int (Entry.position t) = Ok (Track.tracknumber track)
              ∧ Track.discnumber track = 1)
           ∧ (1 < total →
              Py.int (Pos.tracknumber (disc_and_track_no (Entry.position t)))
              = Ok (Track.tracknumber track)
              ∧ Py.int (Pos.discnumber (disc_and_track_no (Entry.position t)))
                = Ok (Track.discnumber track)))
    (filter (λ t, is_subtitle t = false) (typed_tracks self))
    track_list.
Proof.
  intros Hall%track_sequence_spec.
  rewrite <- (scan_entries_filter _ 0 None). apply Forall2_fmap_l.
  eapply Forall2_impl; [exact Hall|].
  intros item track (_ & Htitle & _ & _ & _ & Hn). cbn [compose].
  split; [exact Htitle|].
  unfold numbering in Hn.
  destruct (disctotal self) as [total|e]; [|discriminate].
  cbn [mbind result_bind] in Hn.
  exists total. split; [reflexivity|].
  destruct (Z.ltb_spec 1 total) as [Hmulti|Hsingle].
  - split; [lia|]. intros _.
    destruct (Py.int (Pos.tracknumber _)); [|discriminate].
    cbn [mbind result_bind] in Hn.
    destruct (Py.int (Pos.discnumber _)); [|discriminate].
    by injection Hn as -> ->.
  - split; [|lia]. intros _.
    destruct (Py.int (Entry.position item.2)); [|discriminate].
    by injection Hn as -> <-.
Qed.

Lemma track_numbers_of_entry_witness :
  Forall2
    (λ t track,
       Track.title track = Entry.title t
       ∧ ∃ total,
           disctotal two_discs_subtitled = Ok total
           ∧ (total ≤ 1 →
              Py.int (Entry.position t) = Ok (Track.tracknumber track)
              ∧ Track.discnumber track = 1)
           ∧ (1 < total →
              Py.int (Pos.tracknumber (disc_and_track_no (Entry.position t)))
              = Ok (Track.tracknumber track)
              ∧ Py.int (Pos.discnumber (disc_and_track_no (Entry.position t)))
                = Ok (Track.discnumber track)))
    [ entry "1-1" "A" "3:00" [artist_x]; entry "2-1" "B" "3:00" [artist_x] ]
    [ {| Track.position := 2; Track.tracknumber := 1; Track.discnumber := 1;
         Track.discsubtitle := Some "Disc One"%string;
         Track.sortartist := SortName "X"; Track.artist := ["X"%string];
         Track.title := "A" |};
      {| Track.position := 3; Track.tracknumber := 1; Track.discnumber := 2;
         Track.discsubtitle := Some "Disc One"%string;
         Track.sortartist := SortName "X"; Track.artist := ["X"%string];
         Track.title := "B" |} ].
Proof.
  exact (track_numbers_of_entry two_discs_subtitled _ (or_intror eq_refl)).
Defined.
